(** * rpl/mappers.h: the argument-mapper vocabulary of the reactive library

    A shallow embedding of [Telegram/SourceFiles/rpl/mappers.h] and the
    properties its specification states.

    The header is template code, so it lives on two levels and so does this
    development:

    - the _type level_ ([Module types]): [base_mapper], the trait
      [is_mapper_v], [std::decay_t] and the alias [wrap_mapper_t];
    - the _value level_: mapper objects ([argument_mapper<Index>],
      [value_mapper], [unary_operator_mapper], [binary_operator_mapper]),
      their [operator()], the free operator functions and the instances of
      [namespace mappers].

    A call that the header removes from overload resolution
    ([std::enable_if_t], a failed template argument deduction, an ill-formed
    [decltype] in a default template argument) has the result [None].

    [invoke] gives the result of a call on arguments that the call leaves
    as they are: arguments passed as lvalues, and rvalues of a type whose
    move is a copy.  [Module value_category] has the arguments as references
    to objects, [Module evaluation_order] has operands with side effects,
    and [Module forwarding] has the calls in full: the arguments are
    references, a selector moves from an argument passed as an rvalue, and
    the operand of a composer that runs second finds it moved from.  On
    arguments that no move changes the calls of [Module forwarding] are the
    results of [invoke]. *)

From stdpp Require Import base numbers option list strings.

Set Default Proof Using "Type".

(** ** Operator tags

    The function objects of [<functional>] that the header passes as the
    [Operator] template argument. *)

Inductive unary_operator : Set :=
| negate          (* operator-  line 239 *)
| logical_not     (* operator!  line 371 *)
| bit_not.        (* operator~  line 428 *)

Inductive binary_operator : Set :=
| plus            (* operator+  line 165 *)
| minus           (* operator-  line 180 *)
| multiplies      (* operator*  line 195 *)
| divides         (* operator/  line 210 *)
| modulus         (* operator%  line 225 *)
| less            (* operator<  line 252 *)
| less_equal      (* operator<= line 267 *)
| greater         (* operator>  line 282 *)
| greater_equal   (* operator>= line 297 *)
| equal_to        (* operator== line 312 *)
| not_equal_to    (* operator!= line 327 *)
| logical_and     (* operator&& line 342 *)
| logical_or      (* operator|| line 357 *)
| bit_and         (* operator&  line 384 *)
| bit_or          (* operator|  line 399 *)
| bit_xor.        (* operator^  line 414 *)

(** ** The type level *)

Module types.

Inductive reference : Set :=
| no_reference
| lvalue_reference      (* T&  *)
| rvalue_reference.     (* T&& *)

Inductive fundamental_type : Set :=
| cpp_bool | cpp_char | cpp_int | cpp_unsigned | cpp_long_long | cpp_double.

(** A type is an unqualified type with top-level [const], [volatile] and
    reference qualifiers; template arguments are types again.  An array
    keeps its cv-qualification on the element type, the flags next to an
    array are moved there by [decay_t]. *)
Inductive type : Type :=
| qualified (is_const is_volatile : bool) (ref : reference)
            (core : unqualified_type)
with unqualified_type : Type :=
| fundamental (f : fundamental_type)
| pointer (pointee : type)
| array (element : type)
| function_type (signature : string)
(* a class declared outside the header; the flag tells whether
   [base_mapper] is among its (direct or indirect) base classes *)
| class_type (name : string) (inherits_base_mapper : bool)
(* the classes of the header *)
| base_mapper                                             (* line 26  *)
| argument_mapper (Index : nat)                           (* line 35  *)
| value_mapper (Type_ : type)                             (* line 73  *)
| unary_operator_mapper (Type_ : type)
                        (Operator : unary_operator)       (* line 107 *)
| binary_operator_mapper (Left Right : type)
                         (Operator : binary_operator).    (* line 131 *)

Definition plain (core : unqualified_type) : type :=
  qualified false false no_reference core.

Definition core_of (T : type) : unqualified_type :=
  match T with qualified _ _ _ core => core end.

Definition reference_of (T : type) : reference :=
  match T with qualified _ _ r _ => r end.

(** *** The transformations of [<type_traits>] the header relies on *)

(** cv-qualifiers applied to a reference or to a function type are
    ignored. *)
Definition add_const (T : type) : type :=
  match T with
  | qualified _ _ no_reference (function_type _) => T
  | qualified _ v no_reference core => qualified true v no_reference core
  | _ => T
  end.

Definition add_volatile (T : type) : type :=
  match T with
  | qualified _ _ no_reference (function_type _) => T
  | qualified c _ no_reference core => qualified c true no_reference core
  | _ => T
  end.

Definition add_cv (c v : bool) (T : type) : type :=
  match T with
  | qualified _ _ no_reference (function_type _) => T
  | qualified c0 v0 no_reference core =>
      qualified (c0 || c) (v0 || v) no_reference core
  | _ => T
  end.

(** Reference collapsing: [T& &], [T&& &] and [T& &&] are [T&]. *)
Definition add_lvalue_reference (T : type) : type :=
  match T with
  | qualified c v _ core => qualified c v lvalue_reference core
  end.

Definition add_rvalue_reference (T : type) : type :=
  match T with
  | qualified c v no_reference core => qualified c v rvalue_reference core
  | _ => T
  end.

Definition remove_reference_t (T : type) : type :=
  match T with
  | qualified c v _ core => qualified c v no_reference core
  end.

Definition remove_cv_t (T : type) : type :=
  match T with
  | qualified _ _ no_reference core => qualified false false no_reference core
  | _ => T
  end.

(** [std::decay_t]: drop the reference, then array-to-pointer,
    function-to-pointer, or drop the top-level cv-qualifiers. *)
Definition decay_t (T : type) : type :=
  match remove_reference_t T with
  | qualified c v _ (array element) => plain (pointer (add_cv c v element))
  | qualified _ _ _ (function_type s) =>
      plain (pointer (plain (function_type s)))
  | U => remove_cv_t U
  end.

(** *** [base_mapper] and [is_mapper_v] (lines 26-32) *)

(** The base-clauses of the header: [: base_mapper] at lines 35 and 55,
    [: public base_mapper] at lines 73, 107 and 131. *)
Definition derived_from_base_mapper (D : unqualified_type) : bool :=
  match D with
  | argument_mapper _
  | value_mapper _
  | unary_operator_mapper _ _
  | binary_operator_mapper _ _ _ => true
  | class_type _ inherits => inherits
  | _ => false
  end.

(** [std::is_base_of_v<base_mapper, D>] for an unqualified [D]: [D] is a
    class derived from [base_mapper], or [D] is [base_mapper] itself. *)
Definition is_base_of_v_base_mapper (D : unqualified_type) : bool :=
  match D with
  | base_mapper => true
  | _ => derived_from_base_mapper D
  end.

Definition is_mapper_v (T : type) : bool :=
  is_base_of_v_base_mapper (core_of (decay_t T)).

(** *** [wrap_mapper] (lines 95-104) *)

Definition conditional_t (b : bool) (T F : type) : type :=
  if b then T else F.

Definition wrap_mapper_t (T : type) : type :=
  conditional_t (is_mapper_v T) T (plain (value_mapper T)).

(** The member types of the composers (lines 108, 132, 133). *)
Definition TypeWrapper (T : type) : type := wrap_mapper_t (decay_t T).
Definition LeftWrapper (Left : type) : type := wrap_mapper_t (decay_t Left).
Definition RightWrapper (Right : type) : type :=
  wrap_mapper_t (decay_t Right).

(** Return type of [make_value_mapper] (line 91). *)
Definition make_value_mapper_t (T : type) : type :=
  plain (value_mapper (decay_t T)).

(** Every way of qualifying a type: the same unqualified type under any
    top-level [const], [volatile] and reference. *)
Definition same_up_to_qualifiers (T U : type) : Prop :=
  core_of T = core_of U.

End types.

(** ** The value level *)

(** [std::enable_if_t<condition>] on a function template: the function is
    a candidate only when the condition holds. *)
Definition enable_if {A : Type} (condition : bool) (candidate : A) : option A :=
  if condition then Some candidate else None.

Section mappers.

(** The values that flow through a call: arguments, stored constants and
    results. *)
Context {V : Type}.

(** *** Mapper objects

    One constructor per class of the header, with the data members of the
    class as fields.  [argument_mapper<Index>] has no data member, its
    template argument is all there is to it. *)
Inductive mapper : Type :=
| argument_mapper (Index : nat)                                (* line 35  *)
| value_mapper (_value : V)                                    (* line 86  *)
| unary_operator_mapper (Operator : unary_operator)
                        (_value : mapper)                      (* line 126 *)
| binary_operator_mapper (Operator : binary_operator)
                         (_left _right : mapper).          (* lines 154-155 *)

(** *** [argument_mapper] (lines 34-70) *)

(** The static member [call].  The primary template (lines 36-43) takes
    [arg, args...], is enabled when [sizeof...(Args) >= Index] and
    forwards [args...] to [argument_mapper<Index - 1>::call]; the
    specialization for 0 (lines 56-61) returns [arg].  Both need a first
    argument. *)
Fixpoint call (Index : nat) (args : list V) : option V :=
  match Index, args with
  | _, [] => None
  | 0, arg :: _ => Some arg
  | S Index', _ :: rest =>
      if S Index' <=? length rest then call Index' rest else None
  end.

(** [operator()]: the primary template (lines 45-50) is enabled when
    [sizeof...(Args) > Index] and returns [call(args...)]; the
    specialization for 0 (lines 63-68) takes [arg, args...] and returns
    [arg]. *)
Definition argument_mapper_invoke (Index : nat) (args : list V) : option V :=
  match Index with
  | 0 => match args with
         | arg :: _ => Some arg
         | [] => None
         end
  | S _ => if Index <? length args then call Index args else None
  end.

(** *** Operands and the wrapping of operands

    An operand of an operator function or of a composer's constructor is a
    mapper object or any other value. *)
Inductive operand : Type :=
| plain_value (value : V)
| mapper_object (m : mapper).

(** [is_mapper_v<Type>] of the operand's type. *)
Definition is_mapper (o : operand) : bool :=
  match o with
  | mapper_object _ => true
  | plain_value _ => false
  end.

(** [make_value_mapper] (lines 90-93). *)
Definition make_value_mapper (value : V) : mapper := value_mapper value.

(** Initialisation of a data member of type [wrap_mapper_t<decay_t<Type>>]
    from an operand (lines 113, 138, 139): a mapper is copied, another
    value goes through [value_mapper]'s converting constructor
    (line 76). *)
Definition wrap_mapper (o : operand) : mapper :=
  match o with
  | mapper_object m => m
  | plain_value value => value_mapper value
  end.

(** The constructors of the composers (lines 111-114 and 136-140). *)
Definition make_unary_operator_mapper
    (Operator : unary_operator) (value : operand) : mapper :=
  unary_operator_mapper Operator (wrap_mapper value).

Definition make_binary_operator_mapper
    (Operator : binary_operator) (left right : operand) : mapper :=
  binary_operator_mapper Operator (wrap_mapper left) (wrap_mapper right).

(** *** The operator functions (lines 159-433) *)

Definition operator_plus (left right : operand) : option mapper :=
  enable_if (is_mapper left || is_mapper right)
            (make_binary_operator_mapper plus left right).

Definition operator_minus (left right : operand) : option mapper :=
  enable_if (is_mapper left || is_mapper right)
            (make_binary_operator_mapper minus left right).

Definition operator_multiplies (left right : operand) : option mapper :=
  enable_if (is_mapper left || is_mapper right)
            (make_binary_operator_mapper multiplies left right).

Definition operator_divides (left right : operand) : option mapper :=
  enable_if (is_mapper left || is_mapper right)
            (make_binary_operator_mapper divides left right).

Definition operator_modulus (left right : operand) : option mapper :=
  enable_if (is_mapper left || is_mapper right)
            (make_binary_operator_mapper modulus left right).

Definition operator_negate (value : operand) : option mapper :=
  enable_if (is_mapper value)
            (make_unary_operator_mapper negate value).

Definition operator_less (left right : operand) : option mapper :=
  enable_if (is_mapper left || is_mapper right)
            (make_binary_operator_mapper less left right).

Definition operator_less_equal (left right : operand) : option mapper :=
  enable_if (is_mapper left || is_mapper right)
            (make_binary_operator_mapper less_equal left right).

Definition operator_greater (left right : operand) : option mapper :=
  enable_if (is_mapper left || is_mapper right)
            (make_binary_operator_mapper greater left right).

Definition operator_greater_equal (left right : operand) : option mapper :=
  enable_if (is_mapper left || is_mapper right)
            (make_binary_operator_mapper greater_equal left right).

Definition operator_equal_to (left right : operand) : option mapper :=
  enable_if (is_mapper left || is_mapper right)
            (make_binary_operator_mapper equal_to left right).

Definition operator_not_equal_to (left right : operand) : option mapper :=
  enable_if (is_mapper left || is_mapper right)
            (make_binary_operator_mapper not_equal_to left right).

Definition operator_logical_and (left right : operand) : option mapper :=
  enable_if (is_mapper left || is_mapper right)
            (make_binary_operator_mapper logical_and left right).

Definition operator_logical_or (left right : operand) : option mapper :=
  enable_if (is_mapper left || is_mapper right)
            (make_binary_operator_mapper logical_or left right).

Definition operator_logical_not (value : operand) : option mapper :=
  enable_if (is_mapper value)
            (make_unary_operator_mapper logical_not value).

Definition operator_bit_and (left right : operand) : option mapper :=
  enable_if (is_mapper left || is_mapper right)
            (make_binary_operator_mapper bit_and left right).

Definition operator_bit_or (left right : operand) : option mapper :=
  enable_if (is_mapper left || is_mapper right)
            (make_binary_operator_mapper bit_or left right).

Definition operator_bit_xor (left right : operand) : option mapper :=
  enable_if (is_mapper left || is_mapper right)
            (make_binary_operator_mapper bit_xor left right).

Definition operator_bit_not (value : operand) : option mapper :=
  enable_if (is_mapper value)
            (make_unary_operator_mapper bit_not value).

(** The operator function the header provides for each tag. *)
Definition unary_operator_function
    (Operator : unary_operator) : operand -> option mapper :=
  match Operator with
  | negate => operator_negate
  | logical_not => operator_logical_not
  | bit_not => operator_bit_not
  end.

Definition binary_operator_function
    (Operator : binary_operator) : operand -> operand -> option mapper :=
  match Operator with
  | plus => operator_plus
  | minus => operator_minus
  | multiplies => operator_multiplies
  | divides => operator_divides
  | modulus => operator_modulus
  | less => operator_less
  | less_equal => operator_less_equal
  | greater => operator_greater
  | greater_equal => operator_greater_equal
  | equal_to => operator_equal_to
  | not_equal_to => operator_not_equal_to
  | logical_and => operator_logical_and
  | logical_or => operator_logical_or
  | bit_and => operator_bit_and
  | bit_or => operator_bit_or
  | bit_xor => operator_bit_xor
  end.

(** *** [namespace mappers] (lines 437-465)

    [$] is not a letter here: [$1] is [dollar1], [$val] is
    [dollar_val]. *)
Definition dollar1 : mapper := argument_mapper 0.
Definition dollar2 : mapper := argument_mapper 1.
Definition dollar3 : mapper := argument_mapper 2.
Definition dollar4 : mapper := argument_mapper 3.
Definition dollar5 : mapper := argument_mapper 4.
Definition dollar6 : mapper := argument_mapper 5.
Definition dollar7 : mapper := argument_mapper 6.
Definition dollar8 : mapper := argument_mapper 7.
Definition dollar9 : mapper := argument_mapper 8.
Definition dollar10 : mapper := argument_mapper 9.
Definition dollar11 : mapper := argument_mapper 10.
Definition dollar12 : mapper := argument_mapper 11.
Definition dollar13 : mapper := argument_mapper 12.
Definition dollar14 : mapper := argument_mapper 13.
Definition dollar15 : mapper := argument_mapper 14.
Definition dollar16 : mapper := argument_mapper 15.
Definition dollar17 : mapper := argument_mapper 16.
Definition dollar18 : mapper := argument_mapper 17.
Definition dollar19 : mapper := argument_mapper 18.
Definition dollar20 : mapper := argument_mapper 19.

Definition dollar_val (value : V) : mapper := make_value_mapper value.

(** The named selectors in the order of their declarations; [$k] is the
    entry at position [k - 1]. *)
Definition named_selectors : list mapper :=
  [ dollar1; dollar2; dollar3; dollar4; dollar5;
    dollar6; dollar7; dollar8; dollar9; dollar10;
    dollar11; dollar12; dollar13; dollar14; dollar15;
    dollar16; dollar17; dollar18; dollar19; dollar20 ].

(** *** Invocation *)

(** What the [Operator] function objects compute on the values: [None]
    where the operator expression is ill-formed for the operand types or
    has no defined value. *)
Context (unary_apply : unary_operator -> V -> option V).
Context (binary_apply : binary_operator -> V -> V -> option V).

(** [operator()] of each class: lines 45-50 and 63-68, 80-83, 116-123,
    142-151.  A composer is callable with [args...] when the operator
    expression over the inner calls is well-formed (the [Result] default
    template argument).  The arguments are values that a call does not
    change; [forwarding.calls] is the call on arguments that a selector
    moves from. *)
Fixpoint invoke (m : mapper) (args : list V) : option V :=
  match m with
  | argument_mapper Index => argument_mapper_invoke Index args
  | value_mapper _value => Some _value
  | unary_operator_mapper Operator _value =>
      match invoke _value args with
      | Some result => unary_apply Operator result
      | None => None
      end
  | binary_operator_mapper Operator _left _right =>
      match invoke _left args, invoke _right args with
      | Some left_result, Some right_result =>
          binary_apply Operator left_result right_result
      | _, _ => None
      end
  end.

End mappers.

Arguments mapper V : clear implicits.
Arguments operand V : clear implicits.

(** ** Value categories of the selectors

    [call] is declared [decltype(auto)] and returns
    [std::forward<Arg>(arg)]: its result is the reference it was given.
    [operator()] is declared [auto] (lines 48 and 66): its result is a new
    object, initialised from that reference.  Here the arguments are
    references to objects in a store, so that the two can be told apart. *)

Module value_category.
Section store.

Context {V : Type}.

Definition location : Set := nat.
Definition store : Type := list V.

(** What a forwarding reference [Arg &&arg] was bound to. *)
Inductive category : Set :=
| mutable_lvalue      (* Arg = T&,       arg : T&       *)
| const_lvalue        (* Arg = const T&, arg : const T& *)
| rvalue.             (* Arg = T,        arg : T&&      *)

Record argument : Type := Argument {
  object : location;
  bound_as : category;
}.

Inductive result : Type :=
| reference_to (a : argument)   (* a reference: same object, same category *)
| prvalue (value : V).          (* an object of its own *)

(** [argument_mapper<Index>::call], [decltype(auto)]: the recursion of
    lines 36-43 and 56-61 run on the references themselves. *)
Definition static_call (Index : nat) (args : list argument) : option result :=
  reference_to <$> call Index args.

(** [argument_mapper<Index>::operator()], [auto]: the selected reference
    initialises the returned object. *)
Definition selector_invoke
    (s : store) (Index : nat) (args : list argument) : option result :=
  a ← argument_mapper_invoke Index args;
  value ← s !! object a;
  Some (prvalue value).

(** A result is move-eligible when it is an rvalue. *)
Definition move_eligible (r : result) : bool :=
  match r with
  | reference_to a =>
      match bound_as a with
      | rvalue => true
      | _ => false
      end
  | prvalue _ => true
  end.

(** [auto &&r = <result>; r = value;] in a generic context: ill-formed
    through a reference to const, a write to the referenced object through
    any other reference, a write to a temporary for a prvalue. *)
Definition assign_through (r : result) (value : V) (s : store) : option store :=
  match r with
  | reference_to a =>
      match bound_as a with
      | const_lvalue => None
      | _ => Some (<[object a := value]> s)
      end
  | prvalue _ => Some s
  end.

(** The reading of "mutation through the selector's result reaches the
    original" for [operator()]. *)
Definition invoke_reaches_original : Prop :=
  ∀ (s : store) (Index : nat) (args : list argument)
    (a : argument) (r : result) (value : V),
    args !! Index = Some a →
    bound_as a = mutable_lvalue →
    selector_invoke s Index args = Some r →
    assign_through r value s = Some (<[object a := value]> s).

End store.

Arguments store V : clear implicits.
Arguments result V : clear implicits.

End value_category.

(** ** Order of evaluation inside a binary composer

    Line 148 is one function call, [(Operator{})(_left(...), _right(...))]:
    the two argument expressions are indeterminately sequenced, one of them
    runs to completion and then the other.  Operands with an effect on a
    state [S] (objects of a class derived from [base_mapper] that is declared
    outside the header) make the order visible.  Here the arguments are
    values that a call does not change, and the effects are those of the
    instrumented operands alone; [Module forwarding] adds the effect of a
    selector on an argument it moves from. *)

Module evaluation_order.
Section effects.

Context {V S : Type}.
Context (unary_apply : unary_operator -> V -> option V).
Context (binary_apply : binary_operator -> V -> V -> option V).

(* the mapper objects of the header, under names that stay visible *)
Local Abbreviation header_mapper := (mapper V) (only parsing).
Local Abbreviation header_argument_mapper := argument_mapper (only parsing).
Local Abbreviation header_value_mapper := value_mapper (only parsing).
Local Abbreviation header_unary_operator_mapper :=
  unary_operator_mapper (only parsing).
Local Abbreviation header_binary_operator_mapper :=
  binary_operator_mapper (only parsing).

Inductive mapper : Type :=
| argument_mapper (Index : nat)
| value_mapper (_value : V)
| instrumented (body : list V -> S -> V * S)
| unary_operator_mapper (Operator : unary_operator) (_value : mapper)
| binary_operator_mapper (Operator : binary_operator)
                         (_left _right : mapper).

(** The mappers of the header are the ones with no instrumented part. *)
Fixpoint inject (m : header_mapper) : mapper :=
  match m with
  | header_argument_mapper Index => argument_mapper Index
  | header_value_mapper v => value_mapper v
  | header_unary_operator_mapper Operator m' =>
      unary_operator_mapper Operator (inject m')
  | header_binary_operator_mapper Operator l r =>
      binary_operator_mapper Operator (inject l) (inject r)
  end.

(** [invokes m args s result s']: a call [m(args...)] started in state [s]
    can return [result] and leave the state [s']. *)
Inductive invokes : mapper -> list V -> S -> V -> S -> Prop :=
| invokes_argument Index args s result :
    argument_mapper_invoke Index args = Some result ->
    invokes (argument_mapper Index) args s result s
| invokes_value _value args s :
    invokes (value_mapper _value) args s _value s
| invokes_instrumented body args s result s' :
    body args s = (result, s') ->
    invokes (instrumented body) args s result s'
| invokes_unary Operator _value args s inner s' result :
    invokes _value args s inner s' ->
    unary_apply Operator inner = Some result ->
    invokes (unary_operator_mapper Operator _value) args s result s'
| invokes_binary_left_first Operator _left _right args s a s1 b s2 result :
    invokes _left args s a s1 ->
    invokes _right args s1 b s2 ->
    binary_apply Operator a b = Some result ->
    invokes (binary_operator_mapper Operator _left _right) args s result s2
| invokes_binary_right_first Operator _left _right args s a s1 b s2 result :
    invokes _right args s b s1 ->
    invokes _left args s1 a s2 ->
    binary_apply Operator a b = Some result ->
    invokes (binary_operator_mapper Operator _left _right) args s result s2.

(** The same, run with one order fixed for every call, as one compiler
    would. *)
Fixpoint run (left_first : bool) (m : mapper) (args : list V) (s : S)
    : option (V * S) :=
  match m with
  | argument_mapper Index =>
      result ← argument_mapper_invoke Index args; Some (result, s)
  | value_mapper _value => Some (_value, s)
  | instrumented body => Some (body args s)
  | unary_operator_mapper Operator _value =>
      '(inner, s') ← run left_first _value args s;
      result ← unary_apply Operator inner;
      Some (result, s')
  | binary_operator_mapper Operator _left _right =>
      if left_first then
        '(a, s1) ← run left_first _left args s;
        '(b, s2) ← run left_first _right args s1;
        result ← binary_apply Operator a b;
        Some (result, s2)
      else
        '(b, s1) ← run left_first _right args s;
        '(a, s2) ← run left_first _left args s1;
        result ← binary_apply Operator a b;
        Some (result, s2)
  end.

(** A call that runs the left operand to completion and then the right
    one, and the other way round. *)
Definition left_then_right
    (Operator : binary_operator) (_left _right : mapper)
    (args : list V) (s : S) (result : V) (s' : S) : Prop :=
  ∃ a s1 b,
    invokes _left args s a s1 ∧
    invokes _right args s1 b s' ∧
    binary_apply Operator a b = Some result.

Definition right_then_left
    (Operator : binary_operator) (_left _right : mapper)
    (args : list V) (s : S) (result : V) (s' : S) : Prop :=
  ∃ a s1 b,
    invokes _right args s b s1 ∧
    invokes _left args s1 a s' ∧
    binary_apply Operator a b = Some result.

(** "The left operand's effect is always observed before the right
    operand's": every call of a binary composer runs the left operand
    from the initial state and the right operand from the state the left
    one left. *)
Definition left_before_right : Prop :=
  ∀ Operator _left _right args s result s',
    invokes (binary_operator_mapper Operator _left _right) args s result s' →
    left_then_right Operator _left _right args s result s'.

End effects.

Arguments mapper V S : clear implicits.

End evaluation_order.

(** ** Native operators on [int] and [bool]

    An instance of the operator semantics, for the examples of the
    specification: 32-bit [int] with the usual conversions, truncating
    division, and no value where the native operator has none (signed
    overflow, a zero divisor). *)

Module native.

Inductive value : Set :=
| int (z : Z)
| boolean (b : bool).

Definition in_range (z : Z) : bool :=
  ((- 2 ^ 31 <=? z) && (z <? 2 ^ 31))%Z.

Definition make_int (z : Z) : option value :=
  if in_range z then Some (int z) else None.

(** Integral promotion and contextual conversion to [bool]. *)
Definition to_int (v : value) : Z :=
  match v with
  | int z => z
  | boolean b => if b then 1%Z else 0%Z
  end.

Definition to_bool (v : value) : bool :=
  match v with
  | int z => negb (z =? 0)%Z
  | boolean b => b
  end.

Definition unary_apply (Operator : unary_operator) (v : value) : option value :=
  match Operator with
  | negate => make_int (- to_int v)
  | logical_not => Some (boolean (negb (to_bool v)))
  | bit_not => make_int (Z.lnot (to_int v))
  end.

Definition binary_apply
    (Operator : binary_operator) (a b : value) : option value :=
  let x := to_int a in
  let y := to_int b in
  match Operator with
  | plus => make_int (x + y)
  | minus => make_int (x - y)
  | multiplies => make_int (x * y)
  | divides => if (y =? 0)%Z then None else make_int (x ÷ y)
  | modulus =>
      if (y =? 0)%Z then None
      else if in_range (x ÷ y) then make_int (Z.rem x y) else None
  | less => Some (boolean (x <? y)%Z)
  | less_equal => Some (boolean (x <=? y)%Z)
  | greater => Some (boolean (y <? x)%Z)
  | greater_equal => Some (boolean (y <=? x)%Z)
  | equal_to => Some (boolean (x =? y)%Z)
  | not_equal_to => Some (boolean (negb (x =? y)%Z))
  | logical_and => Some (boolean (to_bool a && to_bool b))
  | logical_or => Some (boolean (to_bool a || to_bool b))
  | bit_and => make_int (Z.land x y)
  | bit_or => make_int (Z.lor x y)
  | bit_xor => make_int (Z.lxor x y)
  end.

(** The static type of a value. *)
Definition type_of (v : value) : types.type :=
  match v with
  | int _ => types.plain (types.fundamental types.cpp_int)
  | boolean _ => types.plain (types.fundamental types.cpp_bool)
  end.

End native.

(** ** Instrumented operands

    Two stand-in operands that append their name to a log and return a
    constant, and a binary composer over them. *)

Module probes.

Definition log : Set := list string.

Definition left_probe : evaluation_order.mapper native.value log :=
  evaluation_order.instrumented
    (fun _ l => (native.int 1, l ++ ["left"%string])).

Definition right_probe : evaluation_order.mapper native.value log :=
  evaluation_order.instrumented
    (fun _ l => (native.int 2, l ++ ["right"%string])).

Definition probed_sum : evaluation_order.mapper native.value log :=
  evaluation_order.binary_operator_mapper plus left_probe right_probe.

End probes.

(** ** The shape of a mapper object *)

Section shape.

Context {V : Type}.

(** The indices of the selectors inside a mapper, left to right. *)
Fixpoint selected (m : mapper V) : list nat :=
  match m with
  | argument_mapper Index => [Index]
  | value_mapper _ => []
  | unary_operator_mapper _ _value => selected _value
  | binary_operator_mapper _ _left _right => selected _left ++ selected _right
  end.

(** The number of arguments the enabling conditions of the selectors inside
    a mapper ask for: [sizeof...(Args) > Index] for each of them. *)
Fixpoint arity (m : mapper V) : nat :=
  match m with
  | argument_mapper Index => S Index
  | value_mapper _ => 0
  | unary_operator_mapper _ _value => arity _value
  | binary_operator_mapper _ _left _right => arity _left `max` arity _right
  end.

End shape.

(** ** The signatures of the operator functions

    [Left], [Right] and [Type] are the template arguments deduced for the
    forwarding references [Left &&left], [Right &&right], [Type &&value]:
    [A&] for an lvalue operand of type [A], [A] for an rvalue.  The
    functions differ in the [Operator] they pass on and in nothing else
    (lines 159-433). *)

Module signatures.
Import types.

(** The condition of the [std::enable_if_t] of a unary operator function
    (lines 236-238) and of a binary one (lines 162-164).  It decides
    whether the function is a candidate, and nothing about its body. *)
Definition unary_operator_enabled (T : type) : bool :=
  is_mapper_v T.

Definition binary_operator_enabled (Left Right : type) : bool :=
  is_mapper_v Left || is_mapper_v Right.

(** The class that the [return] statement of the function constructs
    (lines 240-243 and 166-171). *)
Definition unary_operator_class
    (Operator : unary_operator) (T : type) : unqualified_type :=
  unary_operator_mapper T Operator.

Definition binary_operator_class
    (Operator : binary_operator) (Left Right : type) : unqualified_type :=
  binary_operator_mapper Left Right Operator.

(** The type of the data members of the class an operator function
    returns. *)
Definition member_types (T : type) : list type :=
  match core_of T with
  | unary_operator_mapper U _ => [TypeWrapper U]
  | binary_operator_mapper Left Right _ =>
      [LeftWrapper Left; RightWrapper Right]
  | value_mapper U => [U]
  | _ => []
  end.

(** Held by value: neither a reference nor cv-qualified. *)
Definition by_value (T : type) : bool :=
  match T with
  | qualified false false no_reference _ => true
  | _ => false
  end.

End signatures.

(** ** Instrumented operands that count and that log *)

Section instrumentation.

Context {V State : Type}.

(** The bodies of the instrumented operands inside a mapper. *)
Fixpoint bodies (m : evaluation_order.mapper V State)
    : list (list V -> State -> V * State) :=
  match m with
  | evaluation_order.instrumented body => [body]
  | evaluation_order.unary_operator_mapper _ _value => bodies _value
  | evaluation_order.binary_operator_mapper _ _left _right =>
      bodies _left ++ bodies _right
  | _ => []
  end.

End instrumentation.

(** An operand that counts its calls: it adds one to the counter. *)
Definition counts_calls {V : Type} (body : list V -> nat -> V * nat) : Prop :=
  forall args n, (body args n).2 = S n.

Module counters.

Definition tick (result : native.value)
    : evaluation_order.mapper native.value nat :=
  evaluation_order.instrumented (fun _ n => (result, S n)).

(** [left && right] with a left operand that is false. *)
Definition false_and_true : evaluation_order.mapper native.value nat :=
  evaluation_order.binary_operator_mapper logical_and
    (tick (native.boolean false)) (tick (native.boolean true)).

End counters.

(** ** Calls on forwarded arguments

    [operator()] of a composer forwards its parameter pack to each inner
    mapper (lines 122, 149 and 150), and [operator()] of a selector returns
    by value (lines 48 and 66): the object it returns is copied from an
    argument bound as an lvalue and moved from an argument bound as an
    rvalue, and a move leaves its source as [moved_from] says.  The
    arguments are references to objects in a store, as in
    [Module value_category]; the state of a call is that store together
    with the state that instrumented operands act on. *)

Module forwarding.
Section calls.

Import value_category.

Context {V S : Type}.
Context (moved_from : V -> V).
Context (unary_apply : unary_operator -> V -> option V).
Context (binary_apply : binary_operator -> V -> V -> option V).

(* the mapper objects of the header, under names that stay visible *)
Local Abbreviation header_mapper := (mapper V) (only parsing).
Local Abbreviation header_argument_mapper := argument_mapper (only parsing).
Local Abbreviation header_value_mapper := value_mapper (only parsing).
Local Abbreviation header_unary_operator_mapper :=
  unary_operator_mapper (only parsing).
Local Abbreviation header_binary_operator_mapper :=
  binary_operator_mapper (only parsing).

Record world : Type := World {
  objects : store V;
  outside : S;
}.

Inductive mapper : Type :=
| argument_mapper (Index : nat)
| value_mapper (_value : V)
| instrumented (body : list argument -> world -> V * world)
| unary_operator_mapper (Operator : unary_operator) (_value : mapper)
| binary_operator_mapper (Operator : binary_operator)
                         (_left _right : mapper).

Fixpoint inject (m : header_mapper) : mapper :=
  match m with
  | header_argument_mapper Index => argument_mapper Index
  | header_value_mapper v => value_mapper v
  | header_unary_operator_mapper Operator m' =>
      unary_operator_mapper Operator (inject m')
  | header_binary_operator_mapper Operator l r =>
      binary_operator_mapper Operator (inject l) (inject r)
  end.

(** Initialising the returned object from the selected argument: a copy
    leaves the argument's object as it is, a move leaves it moved from. *)
Definition take (a : argument) (value : V) (w : world) : world :=
  match bound_as a with
  | rvalue => World (<[object a := moved_from value]> (objects w)) (outside w)
  | _ => w
  end.

(** [argument_mapper<Index>::operator()] (lines 45-50 and 63-68). *)
Definition selector_call
    (Index : nat) (args : list argument) (w : world) : option (V * world) :=
  a ← argument_mapper_invoke Index args;
  value ← objects w !! object a;
  Some (value, take a value w).

(** [calls m args w value w']: a call [m(args...)] started in [w] can
    return [value] and leave [w'].  The two operands of a binary composer
    are the arguments of one function call (line 148): one of them runs to
    completion, then the other, on the same forwarded arguments. *)
Inductive calls : mapper -> list argument -> world -> V -> world -> Prop :=
| calls_argument Index args w value w' :
    selector_call Index args w = Some (value, w') ->
    calls (argument_mapper Index) args w value w'
| calls_value _value args w :
    calls (value_mapper _value) args w _value w
| calls_instrumented body args w value w' :
    body args w = (value, w') ->
    calls (instrumented body) args w value w'
| calls_unary Operator _value args w inner w' value :
    calls _value args w inner w' ->
    unary_apply Operator inner = Some value ->
    calls (unary_operator_mapper Operator _value) args w value w'
| calls_binary_left_first Operator _left _right args w a w1 b w2 value :
    calls _left args w a w1 ->
    calls _right args w1 b w2 ->
    binary_apply Operator a b = Some value ->
    calls (binary_operator_mapper Operator _left _right) args w value w2
| calls_binary_right_first Operator _left _right args w a w1 b w2 value :
    calls _right args w b w1 ->
    calls _left args w1 a w2 ->
    binary_apply Operator a b = Some value ->
    calls (binary_operator_mapper Operator _left _right) args w value w2.

(** The same, run with one order fixed for every call. *)
Fixpoint run (left_first : bool) (m : mapper) (args : list argument)
    (w : world) : option (V * world) :=
  match m with
  | argument_mapper Index => selector_call Index args w
  | value_mapper _value => Some (_value, w)
  | instrumented body => Some (body args w)
  | unary_operator_mapper Operator _value =>
      '(inner, w') ← run left_first _value args w;
      value ← unary_apply Operator inner;
      Some (value, w')
  | binary_operator_mapper Operator _left _right =>
      if left_first then
        '(a, w1) ← run left_first _left args w;
        '(b, w2) ← run left_first _right args w1;
        value ← binary_apply Operator a b;
        Some (value, w2)
      else
        '(b, w1) ← run left_first _right args w;
        '(a, w2) ← run left_first _left args w1;
        value ← binary_apply Operator a b;
        Some (value, w2)
  end.

Definition left_then_right
    (Operator : binary_operator) (_left _right : mapper)
    (args : list argument) (w : world) (value : V) (w' : world) : Prop :=
  ∃ a w1 b,
    calls _left args w a w1 ∧
    calls _right args w1 b w' ∧
    binary_apply Operator a b = Some value.

Definition right_then_left
    (Operator : binary_operator) (_left _right : mapper)
    (args : list argument) (w : world) (value : V) (w' : world) : Prop :=
  ∃ a w1 b,
    calls _right args w b w1 ∧
    calls _left args w1 a w' ∧
    binary_apply Operator a b = Some value.

(** No argument is changed by being moved from: each one is bound as an
    lvalue, or is an rvalue whose object a move leaves as it was. *)
Definition stable (args : list argument) (st : store V) : Prop :=
  ∀ i a value,
    args !! i = Some a →
    bound_as a = rvalue →
    st !! object a = Some value →
    moved_from value = value.

(** [values] are the values of the objects that [args] refer to. *)
Definition values_of
    (args : list argument) (st : store V) (values : list V) : Prop :=
  Forall2 (λ a value, st !! object a = Some value) args values.


(** The bodies of the instrumented operands inside a mapper, and two
    things a body may refrain from: letting its result depend on the
    state, and changing the objects the arguments refer to. *)
Fixpoint bodies (m : mapper) : list (list argument -> world -> V * world) :=
  match m with
  | instrumented body => [body]
  | unary_operator_mapper _ _value => bodies _value
  | binary_operator_mapper _ _left _right => bodies _left ++ bodies _right
  | _ => []
  end.

Definition result_ignores_state
    (body : list argument -> world -> V * world) : Prop :=
  ∀ args w1 w2, (body args w1).1 = (body args w2).1.

Definition keeps_objects
    (body : list argument -> world -> V * world) : Prop :=
  ∀ args w, objects (body args w).2 = objects w.

End calls.

Arguments world V S : clear implicits.
Arguments mapper V S : clear implicits.

End forwarding.

(** ** Strings

    An instance of the operator semantics on a type whose move changes its
    source: [std::string] with [+], [==] and [!=], and [bool].  A string
    that was moved from is empty. *)

Module text.

Inductive value : Set :=
| str (s : string)
| flag (b : bool).

Definition moved_from (v : value) : value :=
  match v with
  | str _ => str EmptyString
  | flag b => flag b
  end.

Definition unary_apply (Operator : unary_operator) (v : value) : option value :=
  match Operator, v with
  | logical_not, flag b => Some (flag (negb b))
  | _, _ => None
  end.

Definition binary_apply
    (Operator : binary_operator) (a b : value) : option value :=
  match Operator, a, b with
  | plus, str x, str y => Some (str (x +:+ y))
  | equal_to, str x, str y => Some (flag (String.eqb x y))
  | not_equal_to, str x, str y => Some (flag (negb (String.eqb x y)))
  | logical_and, flag x, flag y => Some (flag (x && y))
  | logical_or, flag x, flag y => Some (flag (x || y))
  | _, _, _ => None
  end.

(** One temporary string ["ab"] as the only argument, and two temporaries
    ["ab"] and ["cd"]. *)
Definition one_temporary : list value_category.argument :=
  [value_category.Argument 0 value_category.rvalue].

Definition two_temporaries : list value_category.argument :=
  [value_category.Argument 0 value_category.rvalue;
   value_category.Argument 1 value_category.rvalue].

Definition ab : forwarding.world value unit :=
  forwarding.World [str "ab"] tt.

Definition ab_cd : forwarding.world value unit :=
  forwarding.World [str "ab"; str "cd"] tt.

(** The same string ["ab"] passed as an lvalue. *)
Definition one_lvalue : list value_category.argument :=
  [value_category.Argument 0 value_category.mutable_lvalue].

End text.

(** ** Arguments that a move leaves as they were

    The move of an [int] or a [bool] is a copy. *)

Definition trivially_moved (v : native.value) : native.value := v.

Module forwarded_probes.

Definition log : Set := list string.

(** Operands that append their name to the log, return a constant and
    leave the arguments alone. *)
Definition left_probe : forwarding.mapper native.value log :=
  forwarding.instrumented
    (fun _ w => (native.int 1,
                 forwarding.World (forwarding.objects w)
                                  (forwarding.outside w ++ ["left"%string]))).

Definition right_probe : forwarding.mapper native.value log :=
  forwarding.instrumented
    (fun _ w => (native.int 2,
                 forwarding.World (forwarding.objects w)
                                  (forwarding.outside w ++ ["right"%string]))).

(** [(left + right) * $1] *)
Definition probed_product : forwarding.mapper native.value log :=
  forwarding.binary_operator_mapper multiplies
    (forwarding.binary_operator_mapper plus left_probe right_probe)
    (forwarding.argument_mapper 0).

Definition one_int : list value_category.argument :=
  [value_category.Argument 0 value_category.rvalue].

Definition seven : forwarding.world native.value log :=
  forwarding.World [native.int 7] [].

End forwarded_probes.

(** * Properties *)

(** ** The capability predicate and the wrapping rule *)

Module types_facts.
Import types.

Lemma is_mapper_v_core (T : type) :
  is_mapper_v T = is_base_of_v_base_mapper (core_of T).
Proof. destruct T as [c v r core]; destruct core; reflexivity. Qed.

(** [is_mapper_v] looks at the unqualified type only. *)
Lemma is_mapper_v_same_core (T U : type) :
  same_up_to_qualifiers T U -> is_mapper_v T = is_mapper_v U.
Proof.
  unfold same_up_to_qualifiers; intros E.
  rewrite !is_mapper_v_core, E; reflexivity.
Qed.

Lemma core_of_add_const T : core_of (add_const T) = core_of T.
Proof. destruct T as [c v [] core]; destruct core; reflexivity. Qed.

Lemma core_of_add_volatile T : core_of (add_volatile T) = core_of T.
Proof. destruct T as [c v [] core]; destruct core; reflexivity. Qed.

Lemma core_of_add_lvalue_reference T :
  core_of (add_lvalue_reference T) = core_of T.
Proof. destruct T; reflexivity. Qed.

Lemma core_of_add_rvalue_reference T :
  core_of (add_rvalue_reference T) = core_of T.
Proof. destruct T as [c v [] core]; reflexivity. Qed.

Lemma is_mapper_v_decay T : is_mapper_v (decay_t T) = is_mapper_v T.
Proof. destruct T as [c v r core]; destruct core; reflexivity. Qed.

Lemma is_mapper_v_characterised (T : type) :
  is_mapper_v T = true <->
  core_of T = base_mapper \/ derived_from_base_mapper (core_of T) = true.
Proof.
  rewrite is_mapper_v_core.
  destruct (core_of T); simpl; split; intros H; auto;
    destruct H as [H | H]; congruence.
Qed.

Lemma wrap_mapper_t_mapper (T : type) :
  is_mapper_v T = true -> wrap_mapper_t T = T.
Proof. unfold wrap_mapper_t; intros ->; reflexivity. Qed.

Lemma wrap_mapper_t_value (T : type) :
  is_mapper_v T = false -> wrap_mapper_t T = plain (value_mapper T).
Proof. unfold wrap_mapper_t; intros ->; reflexivity. Qed.

Lemma is_mapper_v_wrap_mapper_t (T : type) :
  is_mapper_v (wrap_mapper_t T) = true.
Proof.
  unfold wrap_mapper_t; destruct (is_mapper_v T) eqn:E; simpl; auto.
Qed.

(** The member of a composer built on a mapper is that mapper's class,
    held by value. *)
Lemma TypeWrapper_mapper (T : type) :
  is_mapper_v T = true -> TypeWrapper T = decay_t T.
Proof.
  intros H; unfold TypeWrapper.
  apply wrap_mapper_t_mapper; rewrite is_mapper_v_decay; exact H.
Qed.

Lemma TypeWrapper_value (T : type) :
  is_mapper_v T = false -> TypeWrapper T = plain (value_mapper (decay_t T)).
Proof.
  intros H; unfold TypeWrapper.
  apply wrap_mapper_t_value; rewrite is_mapper_v_decay; exact H.
Qed.

Lemma native_values_are_not_mappers (v : native.value) :
  is_mapper_v (native.type_of v) = false.
Proof. destruct v; reflexivity. Qed.

End types_facts.

(** C10 (as amended).  [is_mapper_v] does not depend on the qualification of
    its argument: it has the same value on [T], [T&], [T&&], [const T],
    [volatile T], on [T] with its reference or its cv-qualifiers removed and
    on every other type with the same unqualified type.  It holds exactly
    for [base_mapper] itself and for the classes derived from it, among
    them the four mapper classes of the header under every instantiation,
    and for no fundamental, pointer, array or function type nor for a class
    that does not inherit [base_mapper]. *)
Theorem is_mapper_v_qualifier_invariant_and_exact (T : types.type) :
  (forall c v r,
      types.is_mapper_v (types.qualified c v r (types.core_of T))
      = types.is_mapper_v T) /\
  types.is_mapper_v (types.add_lvalue_reference T) = types.is_mapper_v T /\
  types.is_mapper_v (types.add_rvalue_reference T) = types.is_mapper_v T /\
  types.is_mapper_v (types.add_const T) = types.is_mapper_v T /\
  types.is_mapper_v (types.add_volatile T) = types.is_mapper_v T /\
  types.is_mapper_v (types.remove_reference_t T) = types.is_mapper_v T /\
  types.is_mapper_v (types.remove_cv_t T) = types.is_mapper_v T /\
  (types.is_mapper_v T = true <->
     types.core_of T = types.base_mapper \/
     types.derived_from_base_mapper (types.core_of T) = true) /\
  (forall c v r Index,
      types.is_mapper_v (types.qualified c v r (types.argument_mapper Index))
      = true) /\
  (forall c v r U,
      types.is_mapper_v (types.qualified c v r (types.value_mapper U))
      = true) /\
  (forall c v r U Operator,
      types.is_mapper_v
        (types.qualified c v r (types.unary_operator_mapper U Operator))
      = true) /\
  (forall c v r Left Right Operator,
      types.is_mapper_v
        (types.qualified c v r
           (types.binary_operator_mapper Left Right Operator))
      = true) /\
  (forall c v r f,
      types.is_mapper_v (types.qualified c v r (types.fundamental f))
      = false) /\
  (forall c v r U,
      types.is_mapper_v (types.qualified c v r (types.pointer U)) = false) /\
  (forall c v r U,
      types.is_mapper_v (types.qualified c v r (types.array U)) = false) /\
  (forall c v r signature,
      types.is_mapper_v (types.qualified c v r (types.function_type signature))
      = false) /\
  (forall c v r name,
      types.is_mapper_v (types.qualified c v r (types.class_type name false))
      = false).
Proof.
  repeat match goal with |- _ /\ _ => split end;
    try (intros; reflexivity);
    try (apply types_facts.is_mapper_v_same_core;
         unfold types.same_up_to_qualifiers).
  - intros c v r; apply types_facts.is_mapper_v_same_core; reflexivity.
  - apply types_facts.core_of_add_lvalue_reference.
  - apply types_facts.core_of_add_rvalue_reference.
  - apply types_facts.core_of_add_const.
  - apply types_facts.core_of_add_volatile.
  - destruct T; reflexivity.
  - destruct T as [c v [] core]; reflexivity.
  - apply types_facts.is_mapper_v_characterised.
Qed.

(** C10, the input at which the claim as stated fails: [base_mapper] is
    not derived from [base_mapper] and is none of the four mapper classes,
    and [is_mapper_v<base_mapper>] is true, since [std::is_base_of] holds
    of a class and itself. *)
Lemma is_mapper_v_base_mapper_itself :
  ~ (forall T : types.type,
        types.is_mapper_v T = true <->
        types.derived_from_base_mapper (types.core_of T) = true).
Proof.
  intros claim.
  destruct (claim (types.plain types.base_mapper)) as [derived _].
  specialize (derived eq_refl); simpl in derived; discriminate.
Qed.

(** ** Selectors, value wrappers, composers and the operator functions *)

Section mapper_facts.

Context {V : Type}.
Context (unary_apply : unary_operator -> V -> option V).
Context (binary_apply : binary_operator -> V -> V -> option V).

Local Abbreviation invoke := (invoke unary_apply binary_apply).

(** *** The recursion of [call] *)

Lemma call_base (first : V) (rest : list V) :
  call 0 (first :: rest) = Some first.
Proof. reflexivity. Qed.

Lemma call_primary (Index : nat) (first : V) (rest : list V) :
  call (S Index) (first :: rest)
  = if S Index <=? length rest then call Index rest else None.
Proof. reflexivity. Qed.

Lemma call_short (Index : nat) (args : list V) :
  length args <= Index -> call Index args = None.
Proof.
  revert args; induction Index as [|Index IH]; intros [|arg rest] Hlen;
    try reflexivity; [simpl in Hlen; lia|].
  rewrite call_primary.
  destruct (Nat.leb_spec (S Index) (length rest)) as [Hle | Hgt];
    [simpl in Hlen; lia | reflexivity].
Qed.

(** The enabling condition of the primary [call] never cuts a branch the
    recursion would have finished. *)
Lemma call_step (Index : nat) (first : V) (rest : list V) :
  call (S Index) (first :: rest) = call Index rest.
Proof.
  rewrite call_primary.
  destruct (Nat.leb_spec (S Index) (length rest)) as [Hle | Hgt];
    [reflexivity | symmetry; apply call_short; lia].
Qed.

Lemma call_lookup (Index : nat) (args : list V) :
  call Index args = args !! Index.
Proof.
  revert args; induction Index as [|Index IH]; intros [|arg rest];
    try reflexivity.
  rewrite call_step; apply IH.
Qed.

Lemma argument_mapper_invoke_call (Index : nat) (args : list V) :
  argument_mapper_invoke Index args = call Index args.
Proof.
  destruct Index as [|Index]; [destruct args; reflexivity|].
  unfold argument_mapper_invoke.
  destruct (Nat.ltb_spec (S Index) (length args)) as [Hlt | Hge];
    [reflexivity | symmetry; apply call_short; exact Hge].
Qed.

Lemma argument_mapper_invoke_lookup (Index : nat) (args : list V) :
  argument_mapper_invoke Index args = args !! Index.
Proof. rewrite argument_mapper_invoke_call; apply call_lookup. Qed.

Lemma argument_mapper_viable (Index : nat) (args : list V) :
  is_Some (argument_mapper_invoke Index args) <-> Index < length args.
Proof.
  rewrite argument_mapper_invoke_lookup; apply lookup_lt_is_Some.
Qed.

(** *** Invocation of wrapped operands and of composers *)

Lemma invoke_wrap_mapper_object (m : mapper V) (args : list V) :
  invoke (wrap_mapper (mapper_object m)) args = invoke m args.
Proof. reflexivity. Qed.

Lemma invoke_wrap_plain_value (value : V) (args : list V) :
  invoke (wrap_mapper (plain_value value)) args = Some value.
Proof. reflexivity. Qed.

Lemma invoke_unary (Operator : unary_operator) (m : mapper V)
      (args : list V) :
  invoke (unary_operator_mapper Operator m) args
  = invoke m args ≫= unary_apply Operator.
Proof. simpl; destruct (invoke m args); reflexivity. Qed.

Lemma invoke_binary (Operator : binary_operator) (l r : mapper V)
      (args : list V) :
  invoke (binary_operator_mapper Operator l r) args
  = a ← invoke l args; b ← invoke r args; binary_apply Operator a b.
Proof.
  simpl; destruct (invoke l args), (invoke r args); reflexivity.
Qed.

(** *** The operator functions *)

Lemma binary_operator_function_unfold
      (Operator : binary_operator) (left right : operand V) :
  binary_operator_function Operator left right
  = enable_if (is_mapper left || is_mapper right)
              (binary_operator_mapper Operator
                 (wrap_mapper left) (wrap_mapper right)).
Proof. destruct Operator; reflexivity. Qed.

Lemma unary_operator_function_unfold
      (Operator : unary_operator) (value : operand V) :
  unary_operator_function Operator value
  = enable_if (is_mapper value)
              (unary_operator_mapper Operator (wrap_mapper value)).
Proof. destruct Operator; reflexivity. Qed.

Lemma named_selectors_lookup (k : nat) :
  1 <= k <= 20 ->
  named_selectors (V:=V) !! (k - 1) = Some (argument_mapper (k - 1)).
Proof.
  intros [Hlo Hhi].
  do 21 (destruct k as [|k]; [first [lia | reflexivity]|]); lia.
Qed.

End mapper_facts.

Section mapper_properties.

Context {V : Type}.
Context (unary_apply : unary_operator -> V -> option V).
Context (binary_apply : binary_operator -> V -> V -> option V).

Local Abbreviation invoke := (invoke unary_apply binary_apply).

(** C1.  Invoked on an argument list longer than [N], the selector
    [argument_mapper<N>] returns the argument at position [N], unchanged;
    the value is the one the static [call] computes, by the recursion
    [call<N+1>(first, rest...) = call<N>(rest...)] from
    [call<0>(first, rest...) = first]. *)
Theorem selector_returns_selected_argument
    (N : nat) (args : list V) (Hlen : N < length args) :
  exists a_N : V,
    args !! N = Some a_N /\
    invoke (argument_mapper N) args = Some a_N /\
    invoke (argument_mapper N) args = call N args /\
    (forall (first : V) rest, call (S N) (first :: rest) = call N rest) /\
    (forall (first : V) rest, call 0 (first :: rest) = Some first).
Proof.
  destruct (lookup_lt_is_Some_2 args N Hlen) as [a_N Ha].
  exists a_N; split_and!.
  - exact Ha.
  - simpl; rewrite argument_mapper_invoke_lookup; exact Ha.
  - apply argument_mapper_invoke_call.
  - intros first rest; apply call_step.
  - intros first rest; apply call_base.
Qed.

(** C2.  A value wrapper returns the value it was constructed from on
    every argument list, the empty one included, whatever the arguments
    are; so does the wrapper that [$val] makes. *)
Theorem value_wrapper_returns_stored_value (v : V) (args : list V) :
  invoke (value_mapper v) args = Some v /\
  invoke (value_mapper v) [] = Some v /\
  invoke (dollar_val v) args = Some v /\
  (forall other_args, invoke (value_mapper v) other_args
                      = invoke (value_mapper v) args).
Proof. repeat split. Qed.

(** C4.  [wrap_mapper_t<T>] is [T] when [is_mapper_v<T>] and
    [value_mapper<T>] otherwise; wrapping a wrapped type changes nothing;
    a mapper object wrapped as an operand is the same object, with the
    same result on every argument list. *)
Theorem wrapping_rule (T : types.type) (m : mapper V) (args : list V) :
  types.wrap_mapper_t T
  = (if types.is_mapper_v T then T
     else types.plain (types.value_mapper T)) /\
  types.wrap_mapper_t (types.wrap_mapper_t T) = types.wrap_mapper_t T /\
  wrap_mapper (mapper_object m) = m /\
  invoke (wrap_mapper (mapper_object m)) args = invoke m args /\
  wrap_mapper (mapper_object (wrap_mapper (mapper_object m))) = m.
Proof.
  repeat split.
  apply types_facts.wrap_mapper_t_mapper,
        types_facts.is_mapper_v_wrap_mapper_t.
Qed.

(** C5.  [namespace mappers] declares twenty selectors: for [k] from 1
    to 20, [$k] is [argument_mapper<k - 1>] and returns the [k]-th
    argument of every argument list of length at least [k]; [$val(v)] is
    a value wrapper holding [v]. *)
Theorem named_selectors_select
    (k : nat) (args : list V) (v : V)
    (Hk : 1 <= k <= 20) (Hlen : k <= length args) :
  length (named_selectors (V:=V)) = 20 /\
  (exists (selector : mapper V) (a : V),
      named_selectors !! (k - 1) = Some selector /\
      selector = argument_mapper (k - 1) /\
      args !! (k - 1) = Some a /\
      invoke selector args = Some a) /\
  dollar_val v = value_mapper v.
Proof.
  split; [reflexivity|]; split; [|reflexivity].
  assert (Hlt : k - 1 < length args) by lia.
  destruct (lookup_lt_is_Some_2 args (k - 1) Hlt) as [a Ha].
  exists (argument_mapper (k - 1)), a; split_and!.
  - apply named_selectors_lookup; exact Hk.
  - reflexivity.
  - exact Ha.
  - simpl; rewrite argument_mapper_invoke_lookup; exact Ha.
Qed.

(** C6.  On an argument list of length at most [N] neither
    [argument_mapper<N>::operator()] nor [call] is a candidate: the call
    has no result, and a composer with that selector as an operand is not
    callable on the list either. *)
Theorem selector_not_viable_on_short_list
    (N : nat) (args : list V) (Hlen : length args <= N) :
  invoke (argument_mapper N) args = None /\
  call N args = None /\
  (forall Operator,
      invoke (unary_operator_mapper Operator (argument_mapper N)) args
      = None) /\
  (forall Operator m,
      invoke (binary_operator_mapper Operator (argument_mapper N) m) args
      = None /\
      invoke (binary_operator_mapper Operator m (argument_mapper N)) args
      = None).
Proof.
  assert (Hnone : argument_mapper_invoke N args = None).
  { rewrite argument_mapper_invoke_lookup; apply lookup_ge_None_2, Hlen. }
  split_and!; [| | |intros Operator m; split].
  - exact Hnone.
  - apply call_short, Hlen.
  - intros Operator; simpl; rewrite Hnone; reflexivity.
  - simpl; rewrite Hnone; reflexivity.
  - simpl; rewrite Hnone; destruct (invoke m args); reflexivity.
Qed.

End mapper_properties.

(** ** Value categories *)

Section value_category_properties.

Import value_category.
Context {V : Type}.

Lemma static_call_lookup (Index : nat) (args : list argument) :
  static_call Index args = reference_to (V:=V) <$> args !! Index.
Proof. unfold static_call; rewrite call_lookup; reflexivity. Qed.

Lemma selector_invoke_lookup
      (s : store V) (Index : nat) (args : list argument) :
  selector_invoke s Index args
  = a ← args !! Index; value ← s !! object a; Some (prvalue value).
Proof.
  unfold selector_invoke; rewrite argument_mapper_invoke_lookup; reflexivity.
Qed.

(** C8 (as amended).  The static [call] of a selector returns the selected
    argument as the reference it was passed: the same object under the
    same category, so that a write through the result of selecting a
    mutable reference is a write to the original, and a temporary stays
    move-eligible.  [operator()] returns an object of its own that holds
    the value of the selected argument: it is move-eligible whatever the
    argument was, and a write through it leaves the original as it
    was. *)
Theorem selector_call_forwards_and_invoke_copies
    (s : store V) (N : nat) (args : list argument)
    (a : argument) (x : V)
    (Ha : args !! N = Some a)
    (Hx : s !! object a = Some x) :
  static_call (V:=V) N args = Some (reference_to a) /\
  (bound_as a = mutable_lvalue ->
   forall value,
     assign_through (reference_to a) value s
     = Some (<[object a := value]> s)) /\
  (bound_as a = rvalue -> move_eligible (reference_to (V:=V) a) = true) /\
  selector_invoke s N args = Some (prvalue x) /\
  (forall value, assign_through (prvalue x) value s = Some s) /\
  move_eligible (prvalue x) = true.
Proof.
  split_and!.
  - rewrite static_call_lookup, Ha; reflexivity.
  - intros Hcat value; simpl; rewrite Hcat; reflexivity.
  - intros Hcat; simpl; rewrite Hcat; reflexivity.
  - rewrite selector_invoke_lookup, Ha; simpl; rewrite Hx; reflexivity.
  - reflexivity.
  - reflexivity.
Qed.

End value_category_properties.

(** C8, the input at which the claim as stated fails: with [x = 5] passed
    as a mutable reference, [$1(x)] is a copy of [x], and assigning 9
    through it leaves [x = 5]. *)
Lemma selector_invoke_result_is_a_copy :
  ~ value_category.invoke_reaches_original (V:=Z).
Proof.
  intros claim.
  specialize (claim [5%Z] 0
                [value_category.Argument 0 value_category.mutable_lvalue]
                (value_category.Argument 0 value_category.mutable_lvalue)
                (value_category.prvalue 5%Z) 9%Z
                eq_refl eq_refl eq_refl).
  simpl in claim; discriminate.
Qed.

(** ** Order of evaluation *)

Section evaluation_order_properties.

Context {V S : Type}.
Context (unary_apply : unary_operator -> V -> option V).
Context (binary_apply : binary_operator -> V -> V -> option V).

Local Abbreviation header_mapper := (mapper V) (only parsing).
Local Abbreviation header_invoke :=
  (invoke unary_apply binary_apply) (only parsing).
Local Abbreviation header_binary_operator_mapper :=
  binary_operator_mapper (only parsing).

Import evaluation_order.

Local Abbreviation invokes := (invokes unary_apply binary_apply).
Local Abbreviation run := (run unary_apply binary_apply).
Local Abbreviation left_then_right :=
  (left_then_right unary_apply binary_apply).
Local Abbreviation right_then_left :=
  (right_then_left unary_apply binary_apply).

Lemma invokes_binary_inv Operator (l r : mapper V S) args s result s' :
  invokes (binary_operator_mapper Operator l r) args s result s' <->
  left_then_right Operator l r args s result s' \/
  right_then_left Operator l r args s result s'.
Proof.
  split.
  - inversion 1; subst; [left | right]; do 3 eexists; eauto.
  - intros [(a & s1 & b & Hl & Hr & Hop) | (a & s1 & b & Hr & Hl & Hop)].
    + eapply invokes_binary_left_first; eassumption.
    + eapply invokes_binary_right_first; eassumption.
Qed.

(** Every run with a fixed order is a behaviour of the call. *)
Lemma run_invokes left_first (m : mapper V S) args s result s' :
  run left_first m args s = Some (result, s') ->
  invokes m args s result s'.
Proof.
  revert s result s'.
  induction m as [Index | v | body | Operator m IH | Operator l IHl r IHr];
    intros s result s' Hrun; simpl in Hrun.
  - destruct (argument_mapper_invoke Index args) eqn:E;
      simplify_eq/=; constructor; exact E.
  - simplify_eq; constructor.
  - simplify_eq; constructor; assumption.
  - destruct (run left_first m args s) as [[inner s1]|] eqn:E;
      simplify_eq/=.
    destruct (unary_apply Operator inner) eqn:Eop; simplify_eq/=.
    econstructor; eauto.
  - destruct left_first.
    + destruct (run true l args s) as [[a s1]|] eqn:El; simplify_eq/=.
      destruct (run true r args s1) as [[b s2]|] eqn:Er; simplify_eq/=.
      destruct (binary_apply Operator a b) eqn:Eop; simplify_eq/=.
      eapply invokes_binary_left_first; eauto.
    + destruct (run false r args s) as [[b s1]|] eqn:Er; simplify_eq/=.
      destruct (run false l args s1) as [[a s2]|] eqn:El; simplify_eq/=.
      destruct (binary_apply Operator a b) eqn:Eop; simplify_eq/=.
      eapply invokes_binary_right_first; eauto.
Qed.

End evaluation_order_properties.

(** C9, the input at which the claim as stated fails: the composer over
    the two probes has a call that logs the right operand before the left
    one. *)
Lemma probed_sum_right_operand_first :
  ~ evaluation_order.left_before_right
      (V:=native.value) (S:=probes.log)
      native.unary_apply native.binary_apply.
Proof.
  intros claim.
  assert (Hcall : evaluation_order.invokes
                    native.unary_apply native.binary_apply
                    probes.probed_sum [] []
                    (native.int 3) ["right"; "left"]%string).
  { apply (run_invokes _ _ false); reflexivity. }
  destruct (claim _ _ _ _ _ _ _ Hcall) as (a & s1 & b & Hl & Hr & _).
  inversion Hl; subst; inversion Hr; subst.
  simplify_eq/=.
Qed.

(** ** The properties at concrete inputs *)

Lemma selector_returns_selected_argument_witness :
  1 < length [native.int 10; native.int 20; native.int 30] /\
  exists a_N : native.value,
    [native.int 10; native.int 20; native.int 30] !! 1 = Some a_N /\
    invoke native.unary_apply native.binary_apply (argument_mapper 1)
      [native.int 10; native.int 20; native.int 30] = Some a_N /\
    invoke native.unary_apply native.binary_apply (argument_mapper 1)
      [native.int 10; native.int 20; native.int 30]
    = call 1 [native.int 10; native.int 20; native.int 30] /\
    (forall (first : native.value) rest,
        call 2 (first :: rest) = call 1 rest) /\
    (forall (first : native.value) rest,
        call 0 (first :: rest) = Some first).
Proof.
  split; [simpl; lia|].
  apply (selector_returns_selected_argument
           native.unary_apply native.binary_apply
           1 [native.int 10; native.int 20; native.int 30]).
  simpl; lia.
Defined.

Lemma named_selectors_select_witness :
  1 <= 3 <= 20 /\
  3 <= length [native.int 7; native.boolean true; native.int 9] /\
  length (named_selectors (V:=native.value)) = 20 /\
  (exists (selector : mapper native.value) (a : native.value),
      named_selectors !! (3 - 1) = Some selector /\
      selector = argument_mapper (3 - 1) /\
      [native.int 7; native.boolean true; native.int 9] !! (3 - 1) = Some a /\
      invoke native.unary_apply native.binary_apply selector
        [native.int 7; native.boolean true; native.int 9] = Some a) /\
  dollar_val (native.int 4) = value_mapper (native.int 4).
Proof.
  split; [lia|]; split; [simpl; lia|].
  apply (named_selectors_select
           native.unary_apply native.binary_apply
           3 [native.int 7; native.boolean true; native.int 9]
           (native.int 4)); simpl; lia.
Defined.

Lemma selector_not_viable_on_short_list_witness :
  length [native.int 1; native.int 2] <= 2 /\
  invoke native.unary_apply native.binary_apply
    (argument_mapper 2) [native.int 1; native.int 2] = None /\
  call 2 [native.int 1; native.int 2] = None /\
  (forall Operator,
      invoke native.unary_apply native.binary_apply
        (unary_operator_mapper Operator (argument_mapper 2))
        [native.int 1; native.int 2] = None) /\
  (forall Operator m,
      invoke native.unary_apply native.binary_apply
        (binary_operator_mapper Operator (argument_mapper 2) m)
        [native.int 1; native.int 2] = None /\
      invoke native.unary_apply native.binary_apply
        (binary_operator_mapper Operator m (argument_mapper 2))
        [native.int 1; native.int 2] = None).
Proof.
  split; [simpl; lia|].
  apply (selector_not_viable_on_short_list
           native.unary_apply native.binary_apply
           2 [native.int 1; native.int 2]).
  simpl; lia.
Defined.

Lemma selector_call_forwards_and_invoke_copies_witness :
  [value_category.Argument 1 value_category.const_lvalue;
   value_category.Argument 0 value_category.mutable_lvalue] !! 1
  = Some (value_category.Argument 0 value_category.mutable_lvalue) /\
  [5%Z; 6%Z] !! 0 = Some 5%Z /\
  value_category.static_call (V:=Z) 1
    [value_category.Argument 1 value_category.const_lvalue;
     value_category.Argument 0 value_category.mutable_lvalue]
  = Some (value_category.reference_to
            (value_category.Argument 0 value_category.mutable_lvalue)) /\
  (forall value,
      value_category.assign_through
        (value_category.reference_to
           (value_category.Argument 0 value_category.mutable_lvalue))
        value [5%Z; 6%Z]
      = Some [value; 6%Z]) /\
  value_category.selector_invoke [5%Z; 6%Z] 1
    [value_category.Argument 1 value_category.const_lvalue;
     value_category.Argument 0 value_category.mutable_lvalue]
  = Some (value_category.prvalue 5%Z) /\
  (forall value,
      value_category.assign_through (value_category.prvalue 5%Z)
        value [5%Z; 6%Z]
      = Some [5%Z; 6%Z]).
Proof.
  split; [reflexivity|]; split; [reflexivity|].
  destruct (selector_call_forwards_and_invoke_copies
              [5%Z; 6%Z] 1
              [value_category.Argument 1 value_category.const_lvalue;
               value_category.Argument 0 value_category.mutable_lvalue]
              (value_category.Argument 0 value_category.mutable_lvalue)
              5%Z eq_refl eq_refl)
    as (Hcall & Hwrite & _ & Hinvoke & Hcopy & _).
  split; [exact Hcall|]; split; [exact (Hwrite eq_refl)|].
  split; [exact Hinvoke | exact Hcopy].
Defined.

Lemma is_mapper_v_qualifier_invariant_and_exact_witness :
  types.is_mapper_v
    (types.qualified true false types.lvalue_reference
       (types.argument_mapper 0)) = true /\
  types.is_mapper_v
    (types.add_const (types.plain (types.fundamental types.cpp_int)))
  = false.
Proof.
  split.
  - apply (is_mapper_v_qualifier_invariant_and_exact
             (types.plain (types.argument_mapper 0))).
  - destruct (is_mapper_v_qualifier_invariant_and_exact
                (types.plain (types.fundamental types.cpp_int)))
      as (_ & _ & _ & Hconst & _).
    rewrite Hconst; reflexivity.
Defined.

(** ** The examples of the specification, run *)

Section examples.

Import native.

Local Abbreviation invoke := (invoke native.unary_apply native.binary_apply).

(** [($1 + 5)(10) == 15] *)
Example mixed_sum :
  (composed ← operator_plus (mapper_object dollar1) (plain_value (int 5));
   invoke composed [int 10])
  = Some (int 15).
Proof. reflexivity. Qed.

(** [($1 * $2)(3, 4) == 12] *)
Example product_of_selectors :
  (composed ← operator_multiplies
                (mapper_object dollar1) (mapper_object dollar2);
   invoke composed [int 3; int 4])
  = Some (int 12).
Proof. reflexivity. Qed.

(** [($1 < $2)(2, 3) == true] *)
Example comparison_of_selectors :
  (composed ← operator_less (mapper_object dollar1) (mapper_object dollar2);
   invoke composed [int 2; int 3])
  = Some (boolean true).
Proof. reflexivity. Qed.

(** [(-$1)(7) == -7] and [(!$1)(true) == false] *)
Example negated_selector :
  (composed ← operator_negate (mapper_object dollar1);
   invoke composed [int 7])
  = Some (int (-7)).
Proof. reflexivity. Qed.

Example logically_negated_selector :
  (composed ← operator_logical_not (mapper_object dollar1);
   invoke composed [boolean true])
  = Some (boolean false).
Proof. reflexivity. Qed.

(** [$2 * $val(3) + $1] is one tree of composers, not a number. *)
Example nested_composers :
  (product ← operator_multiplies
               (mapper_object dollar2)
               (mapper_object (dollar_val (int 3)));
   operator_plus (mapper_object product) (mapper_object dollar1))
  = Some (binary_operator_mapper plus
            (binary_operator_mapper multiplies
               (argument_mapper 1) (value_mapper (int 3)))
            (argument_mapper 0)).
Proof. reflexivity. Qed.

(** A composer is built where the operator has no value, and the
    operator is only applied by the call: [$1 / 0]. *)
Example division_is_deferred :
  operator_divides (mapper_object dollar1) (plain_value (int 0))
  = Some (binary_operator_mapper divides
            (argument_mapper 0) (value_mapper (int 0))) /\
  invoke (binary_operator_mapper divides
            (argument_mapper 0) (value_mapper (int 0))) [int 1]
  = None.
Proof. split; reflexivity. Qed.

(** [$3] on two arguments is no candidate; [$1] on none is not either. *)
Example third_of_two :
  invoke dollar3 [int 1; int 2] = None /\ invoke dollar1 [] = None.
Proof. split; reflexivity. Qed.

(** The two orders of the instrumented sum. *)
Example probed_sum_orders :
  evaluation_order.run native.unary_apply native.binary_apply
    true probes.probed_sum [] []
  = Some (int 3, ["left"; "right"]%string) /\
  evaluation_order.run native.unary_apply native.binary_apply
    false probes.probed_sum [] []
  = Some (int 3, ["right"; "left"]%string).
Proof. split; reflexivity. Qed.

End examples.

(** * Further properties of the header *)

(** ** What a composed mapper needs of, and reads from, its arguments *)

Section shape_facts.

Context {V : Type}.
Context (unary_apply : unary_operator -> V -> option V).
Context (binary_apply : binary_operator -> V -> V -> option V).

Local Abbreviation invoke := (invoke unary_apply binary_apply).

Lemma selected_below_arity (m : mapper V) :
  Forall (fun i => i < arity m) (selected m).
Proof.
  induction m as [Index | v | Operator m IH | Operator l IHl r IHr]; simpl.
  - apply Forall_singleton; lia.
  - constructor.
  - exact IH.
  - apply Forall_app; split;
      [eapply Forall_impl; [exact IHl|] | eapply Forall_impl; [exact IHr|]];
      simpl; intros; lia.
Qed.

Lemma invoke_agree (m : mapper V) (args1 args2 : list V) :
  Forall (fun i => args1 !! i = args2 !! i) (selected m) ->
  invoke m args1 = invoke m args2.
Proof.
  induction m as [Index | v | Operator m IH | Operator l IHl r IHr];
    simpl; intros Hagree.
  - rewrite !argument_mapper_invoke_lookup.
    exact (proj1 (Forall_singleton _ _) Hagree).
  - reflexivity.
  - rewrite (IH Hagree); reflexivity.
  - apply Forall_app in Hagree as [Hl Hr].
    rewrite (IHl Hl), (IHr Hr); reflexivity.
Qed.

Lemma invoke_short (m : mapper V) (args : list V) :
  length args < arity m -> invoke m args = None.
Proof.
  induction m as [Index | v | Operator m IH | Operator l IHl r IHr];
    simpl; intros Hlen.
  - rewrite argument_mapper_invoke_lookup; apply lookup_ge_None_2; lia.
  - lia.
  - rewrite (IH Hlen); reflexivity.
  - destruct (Nat.max_spec (arity l) (arity r)) as [[_ E] | [_ E]];
      rewrite E in Hlen.
    + rewrite (IHr Hlen); destruct (invoke l args); reflexivity.
    + rewrite (IHl Hlen); reflexivity.
Qed.

(** X1.  A mapper built from selectors, value wrappers and composers is no
    candidate for an argument list that is shorter than one of its
    selectors asks for, whatever the operators are: the enabling condition
    of the innermost selector decides for the whole tree. *)
Theorem composed_mapper_not_viable_below_arity
    (m : mapper V) (args : list V) (Hlen : length args < arity m) :
  invoke m args = None /\
  (forall Operator other,
      invoke (binary_operator_mapper Operator m other) args = None /\
      invoke (binary_operator_mapper Operator other m) args = None) /\
  (forall Operator, invoke (unary_operator_mapper Operator m) args = None).
Proof.
  pose proof (invoke_short m args Hlen) as Hnone.
  split_and!.
  - exact Hnone.
  - intros Operator other; simpl; rewrite Hnone; split;
      [reflexivity | destruct (invoke other args); reflexivity].
  - intros Operator; simpl; rewrite Hnone; reflexivity.
Qed.

(** X2.  Where every operator has a value on every operand, a mapper is
    callable on exactly the argument lists that have an argument for each
    of its selectors; a tree without selectors is callable on the empty
    list. *)
Theorem composed_mapper_viable_iff_arity
    (m : mapper V) (args : list V)
    (Hunary : forall Operator a, is_Some (unary_apply Operator a))
    (Hbinary : forall Operator a b, is_Some (binary_apply Operator a b)) :
  is_Some (invoke m args) <-> arity m <= length args.
Proof.
  split.
  - intros Hsome.
    destruct (Nat.le_gt_cases (arity m) (length args)) as [Hle | Hgt];
      [exact Hle|].
    rewrite (invoke_short m args Hgt) in Hsome.
    destruct Hsome as [? ?]; discriminate.
  - induction m as [Index | v | Operator m IH | Operator l IHl r IHr];
      simpl; intros Hlen.
    + rewrite argument_mapper_invoke_lookup; apply lookup_lt_is_Some; lia.
    + eexists; reflexivity.
    + destruct (IH Hlen) as [a ->]; apply Hunary.
    + destruct (IHl ltac:(lia)) as [a ->], (IHr ltac:(lia)) as [b ->];
        apply Hbinary.
Qed.

(** X3.  Arguments beyond the ones a mapper needs are ignored: on a list
    that has an argument for each selector, appending further arguments
    changes nothing. *)
Theorem extra_arguments_are_ignored
    (m : mapper V) (args extra : list V) (Hlen : arity m <= length args) :
  invoke m (args ++ extra) = invoke m args.
Proof.
  apply invoke_agree.
  eapply Forall_impl; [apply selected_below_arity|].
  simpl; intros i Hi; apply lookup_app_l; lia.
Qed.

(** X5.  An operator function with a mapper on one side and a plain value
    on the other builds a composer that applies the operator to the
    result of the mapper and the value, each on the side it was written
    on. *)
Theorem plain_operand_keeps_its_side
    (binary : binary_operator) (m : mapper V) (value : V)
    (args : list V) (r : V)
    (Hm : invoke m args = Some r) :
  (exists composed,
      binary_operator_function binary (mapper_object m) (plain_value value)
      = Some composed /\
      invoke composed args = binary_apply binary r value) /\
  (exists composed,
      binary_operator_function binary (plain_value value) (mapper_object m)
      = Some composed /\
      invoke composed args = binary_apply binary value r).
Proof.
  split.
  - exists (binary_operator_mapper binary m (value_mapper value)); split.
    + rewrite binary_operator_function_unfold; reflexivity.
    + simpl; rewrite Hm; reflexivity.
  - exists (binary_operator_mapper binary (value_mapper value) m); split.
    + rewrite binary_operator_function_unfold; reflexivity.
    + simpl; rewrite Hm; reflexivity.
Qed.

End shape_facts.

(** ** The types of composers *)

Module signature_facts.
Import types signatures.

Lemma by_value_decay_t (T : type) : by_value (decay_t T) = true.
Proof. destruct T as [c v r core]; destruct core; reflexivity. Qed.

Lemma by_value_wrap_mapper_t (T : type) :
  by_value T = true -> by_value (wrap_mapper_t T) = true.
Proof.
  intros H; unfold wrap_mapper_t; destruct (is_mapper_v T); [exact H|].
  reflexivity.
Qed.

Lemma decay_t_add_lvalue_reference (T : type) :
  decay_t (add_lvalue_reference T) = decay_t T.
Proof. destruct T; reflexivity. Qed.

Lemma decay_t_add_rvalue_reference (T : type) :
  decay_t (add_rvalue_reference T) = decay_t T.
Proof. destruct T as [c v [] core]; reflexivity. Qed.

Lemma decay_t_mapper (T : type) (c v : bool) (r : reference) :
  is_mapper_v T = true ->
  decay_t (qualified c v r (core_of T)) = plain (core_of T).
Proof.
  rewrite types_facts.is_mapper_v_core.
  destruct T as [c0 v0 r0 core]; destruct core; simpl;
    first [discriminate | reflexivity].
Qed.

End signature_facts.

(** X6.  A composer holds its operands by value: the type of its data
    member is never a reference and never cv-qualified, and it is always a
    mapper type.  A mapper operand, however it was qualified when passed,
    is held as an object of its own class; any other operand is held in
    the value wrapper that [make_value_mapper] would return for it. *)
Theorem composer_members_are_held_by_value (T : types.type) :
  signatures.by_value (types.TypeWrapper T) = true /\
  types.is_mapper_v (types.TypeWrapper T) = true /\
  types.TypeWrapper (types.add_lvalue_reference T) = types.TypeWrapper T /\
  types.TypeWrapper (types.add_rvalue_reference T) = types.TypeWrapper T /\
  (types.is_mapper_v T = true ->
   forall c v r,
     types.TypeWrapper (types.qualified c v r (types.core_of T))
     = types.plain (types.core_of T)) /\
  (types.is_mapper_v T = false ->
   types.TypeWrapper T = types.make_value_mapper_t T /\
   signatures.member_types (types.TypeWrapper T) = [types.decay_t T] /\
   signatures.by_value (types.decay_t T) = true).
Proof.
  split_and!.
  - apply signature_facts.by_value_wrap_mapper_t,
          signature_facts.by_value_decay_t.
  - apply types_facts.is_mapper_v_wrap_mapper_t.
  - unfold types.TypeWrapper.
    rewrite signature_facts.decay_t_add_lvalue_reference; reflexivity.
  - unfold types.TypeWrapper.
    rewrite signature_facts.decay_t_add_rvalue_reference; reflexivity.
  - intros Hm c v r; unfold types.TypeWrapper.
    rewrite (signature_facts.decay_t_mapper T c v r Hm).
    apply types_facts.wrap_mapper_t_mapper.
    rewrite (types_facts.is_mapper_v_same_core
               (types.plain (types.core_of T)) T eq_refl).
    exact Hm.
  - intros Hv.
    rewrite (types_facts.TypeWrapper_value T Hv).
    split_and!; [reflexivity | reflexivity |].
    apply signature_facts.by_value_decay_t.
Qed.

(** ** Operands with effects *)

Section instrumentation_facts.

Context {V : Type}.
Context (unary_apply : unary_operator -> V -> option V).
Context (binary_apply : binary_operator -> V -> V -> option V).

(** X8.  A call of a composed mapper runs every operand inside it exactly
    once, in whichever order: when each instrumented operand adds one to a
    counter, the counter grows by the number of instrumented operands.
    No operator skips an operand; [&&] and [||] evaluate their right
    operand whatever the left one returned. *)
Theorem every_operand_is_evaluated_once
    (m : evaluation_order.mapper V nat) (args : list V)
    (n : nat) (result : V) (n' : nat)
    (Hcount : Forall counts_calls (bodies m))
    (Hcall : evaluation_order.invokes unary_apply binary_apply
               m args n result n') :
  n' = n + length (bodies m).
Proof.
  induction Hcall as
      [ Index args s result Hsel
      | v args s
      | body args s result s' Hbody
      | Operator m args s inner s' result Hm IH Hop
      | Operator l r args s a s1 b s2 result Hl IHl Hr IHr Hop
      | Operator l r args s a s1 b s2 result Hr IHr Hl IHl Hop ];
    simpl in *.
  - lia.
  - lia.
  - pose proof (proj1 (Forall_singleton _ _) Hcount args s) as Hone.
    rewrite Hbody in Hone; simpl in Hone; lia.
  - apply IH, Hcount.
  - apply Forall_app in Hcount as [Hcl Hcr].
    rewrite length_app, (IHr Hcr), (IHl Hcl); lia.
  - apply Forall_app in Hcount as [Hcl Hcr].
    rewrite length_app, (IHl Hcl), (IHr Hcr); lia.
Qed.

End instrumentation_facts.

(** ** Writing through the reference a selector's [call] returns *)

Section reference_facts.

Import value_category.
Context {V : Type}.

(** X10.  The reference that the static [call] of a selector returns and
    the value that its [operator()] returns belong to the same object: a
    write through the former, to an argument that is not a reference to
    const, is what a later call of [operator()] on the same arguments
    returns, and no other object of the store has changed. *)
Theorem write_through_call_is_read_by_invoke
    (s : store V) (N : nat) (args : list argument) (a : argument) (value : V)
    (Ha : args !! N = Some a)
    (Hlive : object a < length s)
    (Hmutable : bound_as a <> const_lvalue) :
  exists s' : store V,
    (r ← static_call N args; assign_through r value s) = Some s' /\
    selector_invoke s' N args = Some (prvalue value) /\
    length s' = length s /\
    (forall l, l <> object a -> s' !! l = s !! l).
Proof.
  exists (<[object a := value]> s); split_and!.
  - rewrite static_call_lookup, Ha; simpl.
    destruct (bound_as a); [reflexivity | contradiction | reflexivity].
  - rewrite selector_invoke_lookup, Ha; simpl.
    rewrite list_lookup_insert_eq by exact Hlive; reflexivity.
  - apply length_insert.
  - intros l Hl; apply list_lookup_insert_ne; congruence.
Qed.

End reference_facts.

(** ** The further properties at concrete inputs *)

Lemma composed_mapper_not_viable_below_arity_witness :
  length [native.int 1] <
    arity (V:=native.value)
      (binary_operator_mapper plus (argument_mapper 0) (argument_mapper 1)) /\
  invoke native.unary_apply native.binary_apply
    (binary_operator_mapper plus (argument_mapper 0) (argument_mapper 1))
    [native.int 1] = None.
Proof.
  split; [simpl; lia|].
  apply (composed_mapper_not_viable_below_arity
           native.unary_apply native.binary_apply
           (binary_operator_mapper plus
              (argument_mapper 0) (argument_mapper 1))
           [native.int 1]).
  simpl; lia.
Defined.

Lemma composed_mapper_viable_iff_arity_witness :
  (forall (Operator : unary_operator) (a : nat), is_Some (Some a)) /\
  (forall (Operator : binary_operator) (a b : nat), is_Some (Some (a + b))) /\
  (is_Some
     (invoke (fun _ a => Some a) (fun _ a b => Some (a + b))
        (binary_operator_mapper plus
           (argument_mapper 1) (value_mapper 5)) [10; 20])
   <-> arity (binary_operator_mapper plus
                (argument_mapper 1) (value_mapper 5)) <= length [10; 20]).
Proof.
  split; [intros; eexists; reflexivity|].
  split; [intros; eexists; reflexivity|].
  apply (composed_mapper_viable_iff_arity
           (fun _ a => Some a) (fun _ a b => Some (a + b))
           (binary_operator_mapper plus (argument_mapper 1) (value_mapper 5))
           [10; 20]);
    intros; eexists; reflexivity.
Defined.

Lemma extra_arguments_are_ignored_witness :
  arity (V:=native.value) (binary_operator_mapper multiplies dollar1 dollar2)
    <= length [native.int 3; native.int 4] /\
  invoke native.unary_apply native.binary_apply
    (binary_operator_mapper multiplies dollar1 dollar2)
    ([native.int 3; native.int 4] ++ [native.boolean true])
  = invoke native.unary_apply native.binary_apply
      (binary_operator_mapper multiplies dollar1 dollar2)
      [native.int 3; native.int 4].
Proof.
  split; [simpl; lia|].
  apply (extra_arguments_are_ignored
           native.unary_apply native.binary_apply
           (binary_operator_mapper multiplies dollar1 dollar2)
           [native.int 3; native.int 4] [native.boolean true]).
  simpl; lia.
Defined.

Lemma plain_operand_keeps_its_side_witness :
  invoke native.unary_apply native.binary_apply
    dollar1 [native.int 10] = Some (native.int 10) /\
  (exists composed,
      binary_operator_function minus
        (mapper_object dollar1) (plain_value (native.int 3))
      = Some composed /\
      invoke native.unary_apply native.binary_apply composed [native.int 10]
      = native.binary_apply minus (native.int 10) (native.int 3)) /\
  (exists composed,
      binary_operator_function minus
        (plain_value (native.int 3)) (mapper_object dollar1)
      = Some composed /\
      invoke native.unary_apply native.binary_apply composed [native.int 10]
      = native.binary_apply minus (native.int 3) (native.int 10)).
Proof.
  split; [reflexivity|].
  apply (plain_operand_keeps_its_side
           native.unary_apply native.binary_apply minus
           dollar1 (native.int 3) [native.int 10] (native.int 10)).
  reflexivity.
Defined.

Lemma composer_members_are_held_by_value_witness :
  types.TypeWrapper
    (types.qualified true false types.lvalue_reference
       (types.argument_mapper 0))
  = types.plain (types.argument_mapper 0) /\
  types.TypeWrapper
    (types.qualified true false types.lvalue_reference
       (types.fundamental types.cpp_int))
  = types.make_value_mapper_t
      (types.qualified true false types.lvalue_reference
         (types.fundamental types.cpp_int)).
Proof.
  split.
  - destruct (composer_members_are_held_by_value
                (types.plain (types.argument_mapper 0)))
      as (_ & _ & _ & _ & Hmapper & _).
    exact (Hmapper eq_refl true false types.lvalue_reference).
  - destruct (composer_members_are_held_by_value
                (types.qualified true false types.lvalue_reference
                   (types.fundamental types.cpp_int)))
      as (_ & _ & _ & _ & _ & Hvalue).
    exact (proj1 (Hvalue eq_refl)).
Defined.

Lemma every_operand_is_evaluated_once_witness :
  Forall counts_calls (bodies counters.false_and_true) /\
  evaluation_order.invokes native.unary_apply native.binary_apply
    counters.false_and_true [] 0 (native.boolean false) 2 /\
  2 = 0 + length (bodies counters.false_and_true).
Proof.
  assert (Hcount : Forall counts_calls (bodies counters.false_and_true)).
  { simpl; repeat constructor. }
  assert (Hcall : evaluation_order.invokes
                    native.unary_apply native.binary_apply
                    counters.false_and_true [] 0 (native.boolean false) 2).
  { apply (run_invokes _ _ true); reflexivity. }
  split; [exact Hcount|]; split; [exact Hcall|].
  exact (every_operand_is_evaluated_once
           native.unary_apply native.binary_apply
           counters.false_and_true [] 0 (native.boolean false) 2
           Hcount Hcall).
Defined.

Lemma write_through_call_is_read_by_invoke_witness :
  [value_category.Argument 1 value_category.const_lvalue;
   value_category.Argument 0 value_category.mutable_lvalue] !! 1
  = Some (value_category.Argument 0 value_category.mutable_lvalue) /\
  0 < length [5%Z; 6%Z] /\
  value_category.mutable_lvalue <> value_category.const_lvalue /\
  exists s' : value_category.store Z,
    (r ← value_category.static_call 1
           [value_category.Argument 1 value_category.const_lvalue;
            value_category.Argument 0 value_category.mutable_lvalue];
     value_category.assign_through r 9%Z [5%Z; 6%Z]) = Some s' /\
    value_category.selector_invoke s' 1
      [value_category.Argument 1 value_category.const_lvalue;
       value_category.Argument 0 value_category.mutable_lvalue]
    = Some (value_category.prvalue 9%Z) /\
    length s' = length [5%Z; 6%Z] /\
    (forall l, l <> 0 -> s' !! l = [5%Z; 6%Z] !! l).
Proof.
  split; [reflexivity|]; split; [simpl; lia|]; split; [discriminate|].
  apply (write_through_call_is_read_by_invoke
           [5%Z; 6%Z] 1
           [value_category.Argument 1 value_category.const_lvalue;
            value_category.Argument 0 value_category.mutable_lvalue]
           (value_category.Argument 0 value_category.mutable_lvalue) 9%Z);
    [reflexivity | simpl; lia | discriminate].
Defined.

(** * Calls on forwarded arguments *)

Section forwarding_facts.

Context {V S : Type}.
Context (moved_from : V -> V).
Context (unary_apply : unary_operator -> V -> option V).
Context (binary_apply : binary_operator -> V -> V -> option V).

Local Abbreviation header_mapper := (mapper V) (only parsing).
Local Abbreviation header_invoke :=
  (invoke unary_apply binary_apply) (only parsing).
Local Abbreviation header_unary_operator_mapper :=
  unary_operator_mapper (only parsing).
Local Abbreviation header_binary_operator_mapper :=
  binary_operator_mapper (only parsing).
Local Abbreviation header_value_mapper := value_mapper (only parsing).

Import value_category forwarding.

Local Abbreviation calls := (calls moved_from unary_apply binary_apply).
Local Abbreviation run := (run moved_from unary_apply binary_apply).
Local Abbreviation stable := (stable moved_from).
Local Abbreviation left_then_right :=
  (left_then_right moved_from unary_apply binary_apply).
Local Abbreviation right_then_left :=
  (right_then_left moved_from unary_apply binary_apply).

Lemma calls_binary_inv Operator (l r : mapper V S) args w value w' :
  calls (binary_operator_mapper Operator l r) args w value w' <->
  left_then_right Operator l r args w value w' \/
  right_then_left Operator l r args w value w'.
Proof.
  split.
  - inversion 1; subst; [left | right]; do 3 eexists; eauto.
  - intros [(a & w1 & b & Hl & Hr & Hop) | (a & w1 & b & Hr & Hl & Hop)].
    + eapply calls_binary_left_first; eassumption.
    + eapply calls_binary_right_first; eassumption.
Qed.

Lemma calls_unary_inv Operator (m : mapper V S) args w value w' :
  calls (unary_operator_mapper Operator m) args w value w' <->
  exists inner,
    calls m args w inner w' /\ unary_apply Operator inner = Some value.
Proof.
  split.
  - inversion 1; subst; eauto.
  - intros (inner & Hm & Hop); eapply calls_unary; eassumption.
Qed.

Lemma calls_value_inv (c : V) args (w : world V S) value w' :
  calls (value_mapper c) args w value w' <-> value = c /\ w' = w.
Proof.
  split.
  - inversion 1; subst; auto.
  - intros [-> ->]; constructor.
Qed.

(** Every run with a fixed order is a behaviour of the call. *)
Lemma run_calls left_first (m : mapper V S) args w value w' :
  run left_first m args w = Some (value, w') ->
  calls m args w value w'.
Proof.
  revert w value w'.
  induction m as [Index | c | body | Operator m IH | Operator l IHl r IHr];
    intros w value w' Hrun; simpl in Hrun.
  - constructor; exact Hrun.
  - simplify_eq; constructor.
  - simplify_eq; constructor; assumption.
  - destruct (run left_first m args w) as [[inner w1]|] eqn:E;
      simplify_eq/=.
    destruct (unary_apply Operator inner) eqn:Eop; simplify_eq/=.
    econstructor; eauto.
  - destruct left_first.
    + destruct (run true l args w) as [[a w1]|] eqn:El; simplify_eq/=.
      destruct (run true r args w1) as [[b w2]|] eqn:Er; simplify_eq/=.
      destruct (binary_apply Operator a b) eqn:Eop; simplify_eq/=.
      eapply calls_binary_left_first; eauto.
    + destruct (run false r args w) as [[b w1]|] eqn:Er; simplify_eq/=.
      destruct (run false l args w1) as [[a w2]|] eqn:El; simplify_eq/=.
      destruct (binary_apply Operator a b) eqn:Eop; simplify_eq/=.
      eapply calls_binary_right_first; eauto.
Qed.

Lemma selector_call_inv Index args (w : world V S) value w' :
  selector_call moved_from Index args w = Some (value, w') <->
  exists a,
    args !! Index = Some a /\
    objects w !! object a = Some value /\
    w' = take moved_from a value w.
Proof.
  unfold selector_call; rewrite argument_mapper_invoke_lookup.
  destruct (args !! Index) as [a|]; simpl.
  - destruct (objects w !! object a) as [x|] eqn:Hx; simpl; split.
    + intros E; simplify_eq; exists a; auto.
    + intros (a' & E1 & E2 & ->); simplify_eq; reflexivity.
    + discriminate.
    + intros (a' & E1 & E2 & _); simplify_eq.
  - split; [discriminate | intros (a' & E & _); discriminate].
Qed.

Lemma objects_take a value (w : world V S) :
  objects (take moved_from a value w)
  = match bound_as a with
    | rvalue => <[object a := moved_from value]> (objects w)
    | _ => objects w
    end.
Proof. unfold take; destruct (bound_as a); reflexivity. Qed.

Lemma outside_take a value (w : world V S) :
  outside (take moved_from a value w) = outside w.
Proof. unfold take; destruct (bound_as a); reflexivity. Qed.

Lemma world_eq (w w' : world V S) :
  objects w' = objects w -> outside w' = outside w -> w' = w.
Proof. destruct w, w'; simpl; intros -> ->; reflexivity. Qed.

Lemma objects_take_stable i args a value (w : world V S) :
  stable args (objects w) ->
  args !! i = Some a ->
  objects w !! object a = Some value ->
  objects (take moved_from a value w) = objects w.
Proof.
  intros Hstable Ha Hvalue; rewrite objects_take.
  destruct (bound_as a) eqn:Hcat; try reflexivity.
  rewrite (Hstable i a value Ha Hcat Hvalue).
  apply list_insert_id; exact Hvalue.
Qed.

(** On arguments that moves leave alone, a call changes no object unless
    an instrumented operand does. *)
Lemma calls_objects (m : mapper V S) args st w value w' :
  stable args st ->
  Forall keeps_objects (bodies m) ->
  objects w = st ->
  calls m args w value w' ->
  objects w' = st.
Proof.
  intros Hstable Hkeep Hobj Hcall; revert Hstable Hkeep Hobj.
  induction Hcall as
      [ Index args w value w' Hsel
      | c args w
      | body args w value w' Hbody
      | Operator m args w inner w' value Hm IH Hop
      | Operator l r args w a w1 b w2 value Hl IHl Hr IHr Hop
      | Operator l r args w a w1 b w2 value Hr IHr Hl IHl Hop ];
    simpl; intros Hstable Hkeep Hobj.
  - apply selector_call_inv in Hsel as (x & Hx & Hvalue & ->).
    subst st; eapply objects_take_stable; eassumption.
  - exact Hobj.
  - pose proof (proj1 (Forall_singleton _ _) Hkeep args w) as Hsame.
    rewrite Hbody in Hsame; simpl in Hsame; congruence.
  - auto.
  - apply Forall_app in Hkeep as [Hkl Hkr]; auto.
  - apply Forall_app in Hkeep as [Hkl Hkr]; auto.
Qed.

Lemma bodies_inject (m : header_mapper) : bodies (S:=S) (inject m) = [].
Proof.
  induction m as [Index | c | Operator m IH | Operator l IHl r IHr]; simpl;
    try reflexivity; [exact IH | rewrite IHl, IHr; reflexivity].
Qed.

(** The mappers of the header do not touch the outside state. *)
Lemma calls_inject_outside (m : header_mapper) args (w : world V S) value w' :
  calls (inject m) args w value w' -> outside w' = outside w.
Proof.
  revert w value w'.
  induction m as [Index | c | Operator m IH | Operator l IHl r IHr];
    intros w value w'; simpl.
  - inversion 1 as [? ? ? ? ? Hsel| | | | |]; subst.
    apply selector_call_inv in Hsel as (a & _ & _ & ->).
    apply outside_take.
  - inversion 1; reflexivity.
  - inversion 1 as [| | |? ? ? ? inner ? ? Hm Hop| |]; subst; eauto.
  - inversion 1 as [| | | |? ? ? ? ? a w1 b ? ? Hl Hr Hop
                          |? ? ? ? ? a w1 b ? ? Hr Hl Hop]; subst.
    + rewrite (IHr _ _ _ Hr); eauto.
    + rewrite (IHl _ _ _ Hl); eauto.
Qed.

(** On arguments that moves leave alone, a call of a mapper of the header
    changes nothing. *)
Lemma calls_inject_stable (m : header_mapper) args (w : world V S) value w' :
  stable args (objects w) ->
  calls (inject m) args w value w' ->
  w' = w.
Proof.
  intros Hstable Hcall; apply world_eq.
  - eapply calls_objects; [exact Hstable | | reflexivity | exact Hcall].
    rewrite bodies_inject; constructor.
  - eapply calls_inject_outside; exact Hcall.
Qed.

(** On arguments that moves leave alone and with instrumented operands
    whose results ignore the state, a mapper has one result. *)
Lemma calls_result_unique (m : mapper V S) args st :
  stable args st ->
  Forall result_ignores_state (bodies m) ->
  Forall keeps_objects (bodies m) ->
  forall w t v u w' t',
    objects w = st -> objects t = st ->
    calls m args w v w' -> calls m args t u t' -> v = u.
Proof.
  intros Hstable.
  induction m as [Index | c | body | Operator m IH | Operator l IHl r IHr];
    simpl; intros Hpure Hkeep w t v u w' t' Hw Ht Hfirst Hsecond.
  - inversion Hfirst as [? ? ? ? ? Sel1| | | | |];
      inversion Hsecond as [? ? ? ? ? Sel2| | | | |]; subst.
    apply selector_call_inv in Sel1 as (a1 & Ha1 & Hv1 & _).
    apply selector_call_inv in Sel2 as (a2 & Ha2 & Hv2 & _).
    congruence.
  - inversion Hfirst; inversion Hsecond; congruence.
  - inversion Hfirst as [| |? ? ? ? ? E1| | |];
      inversion Hsecond as [| |? ? ? ? ? E2| | |]; subst.
    pose proof (proj1 (Forall_singleton _ _) Hpure args w t) as Hsame.
    rewrite E1, E2 in Hsame; exact Hsame.
  - inversion Hfirst as [| | |? ? ? ? a1 ? ? Inner1 Op1| |];
      inversion Hsecond as [| | |? ? ? ? a2 ? ? Inner2 Op2| |]; subst.
    pose proof (IH Hpure Hkeep _ _ _ _ _ _ eq_refl Ht Inner1 Inner2) as ->.
    congruence.
  - apply Forall_app in Hpure as [Hpl Hpr].
    apply Forall_app in Hkeep as [Hkl Hkr].
    inversion Hfirst as [| | | |? ? ? ? ? a1 w1 b1 ? ? Left1 Right1 Op1
                                |? ? ? ? ? a1 w1 b1 ? ? Right1 Left1 Op1];
      inversion Hsecond as [| | | |? ? ? ? ? a2 t1 b2 ? ? Left2 Right2 Op2
                                  |? ? ? ? ? a2 t1 b2 ? ? Right2 Left2 Op2];
      subst.
    + pose proof (calls_objects l args _ w a1 w1 Hstable Hkl eq_refl Left1)
        as Hw1.
      pose proof (calls_objects l args _ t a2 t1 Hstable Hkl Ht Left2)
        as Ht1.
      pose proof (IHl Hpl Hkl _ _ _ _ _ _ eq_refl Ht Left1 Left2) as ->.
      pose proof (IHr Hpr Hkr _ _ _ _ _ _ Hw1 Ht1 Right1 Right2) as ->.
      congruence.
    + pose proof (calls_objects l args _ w a1 w1 Hstable Hkl eq_refl Left1)
        as Hw1.
      pose proof (calls_objects r args _ t b2 t1 Hstable Hkr Ht Right2)
        as Ht1.
      pose proof (IHl Hpl Hkl _ _ _ _ _ _ eq_refl Ht1 Left1 Left2) as ->.
      pose proof (IHr Hpr Hkr _ _ _ _ _ _ Hw1 Ht Right1 Right2) as ->.
      congruence.
    + pose proof (calls_objects r args _ w b1 w1 Hstable Hkr eq_refl Right1)
        as Hw1.
      pose proof (calls_objects l args _ t a2 t1 Hstable Hkl Ht Left2)
        as Ht1.
      pose proof (IHl Hpl Hkl _ _ _ _ _ _ Hw1 Ht Left1 Left2) as ->.
      pose proof (IHr Hpr Hkr _ _ _ _ _ _ eq_refl Ht1 Right1 Right2) as ->.
      congruence.
    + pose proof (calls_objects r args _ w b1 w1 Hstable Hkr eq_refl Right1)
        as Hw1.
      pose proof (calls_objects r args _ t b2 t1 Hstable Hkr Ht Right2)
        as Ht1.
      pose proof (IHr Hpr Hkr _ _ _ _ _ _ eq_refl Ht Right1 Right2) as ->.
      pose proof (IHl Hpl Hkl _ _ _ _ _ _ Hw1 Ht1 Left1 Left2) as ->.
      congruence.
Qed.


(** A call looks at the arguments its selectors name and at no other. *)
Lemma calls_inject_agree (m : header_mapper) args1 args2 :
  Forall (fun i => args1 !! i = args2 !! i) (selected m) ->
  forall (w : world V S) value w',
    calls (inject m) args1 w value w' -> calls (inject m) args2 w value w'.
Proof.
  induction m as [Index | c | Operator m IH | Operator l IHl r IHr];
    simpl; intros Hagree w value w' Hcall.
  - inversion Hcall as [? ? ? ? ? Hsel| | | | |]; subst.
    constructor.
    apply selector_call_inv in Hsel as (a & Ha & Hvalue & ->).
    apply selector_call_inv; exists a; split_and!; auto.
    rewrite <- (proj1 (Forall_singleton _ _) Hagree); exact Ha.
  - inversion Hcall; subst; constructor.
  - apply calls_unary_inv in Hcall as (inner & Hm & Hop).
    apply calls_unary_inv; eauto.
  - apply Forall_app in Hagree as [Hl Hr].
    apply calls_binary_inv in Hcall
      as [(a & w1 & b & Ha & Hb & Hop) | (a & w1 & b & Hb & Ha & Hop)];
      apply calls_binary_inv; [left | right]; exists a, w1, b; auto.
Qed.

(** [invoke] on the values of the arguments is what a call returns when
    moves leave the arguments alone. *)
Lemma calls_inject_invoke (m : header_mapper) args (w : world V S) values :
  values_of args (objects w) values ->
  stable args (objects w) ->
  forall value w',
    calls (inject m) args w value w' <->
    header_invoke m values = Some value /\ w' = w.
Proof.
  intros Hvalues Hstable value w'; split.
  - intros Hcall.
    pose proof (calls_inject_stable m args w value w' Hstable Hcall) as ->.
    split; [|reflexivity].
    revert value Hcall.
    induction m as [Index | c | Operator m IH | Operator l IHl r IHr];
      simpl; intros value Hcall.
    + inversion Hcall as [? ? ? ? ? Hsel| | | | |]; subst.
      apply selector_call_inv in Hsel as (a & Ha & Hvalue & _).
      rewrite argument_mapper_invoke_lookup.
      destruct (Forall2_lookup_l _ _ _ _ _ Hvalues Ha) as (x & Hx & Hax).
      congruence.
    + inversion Hcall; reflexivity.
    + apply calls_unary_inv in Hcall as (inner & Hm & Hop).
      pose proof (calls_inject_stable m args w inner w Hstable Hm).
      rewrite (IH _ Hm); exact Hop.
    + apply calls_binary_inv in Hcall
        as [(a & w1 & b & Ha & Hb & Hop) | (a & w1 & b & Hb & Ha & Hop)].
      * pose proof (calls_inject_stable l args w a w1 Hstable Ha) as ->.
        rewrite (IHl _ Ha), (IHr _ Hb); exact Hop.
      * pose proof (calls_inject_stable r args w b w1 Hstable Hb) as ->.
        rewrite (IHl _ Ha), (IHr _ Hb); exact Hop.
  - intros [Hinvoke ->]; revert value Hinvoke.
    induction m as [Index | c | Operator m IH | Operator l IHl r IHr];
      simpl; intros value Hinvoke.
    + rewrite argument_mapper_invoke_lookup in Hinvoke.
      destruct (Forall2_lookup_r _ _ _ _ _ Hvalues Hinvoke)
        as (a & Ha & Hvalue).
      constructor; apply selector_call_inv; exists a; split_and!; auto.
      symmetry; apply world_eq; [|apply outside_take].
      eapply objects_take_stable; eassumption.
    + simplify_eq; constructor.
    + destruct (header_invoke m values) as [inner|] eqn:E; [|discriminate].
      eapply calls_unary; [apply IH; reflexivity | exact Hinvoke].
    + destruct (header_invoke l values) as [a|] eqn:El; [|discriminate].
      destruct (header_invoke r values) as [b|] eqn:Er; [|discriminate].
      eapply calls_binary_left_first;
        [apply IHl; reflexivity | apply IHr; reflexivity | exact Hinvoke].
Qed.

End forwarding_facts.

Section forwarding_properties.

Context {V S : Type}.
Context (moved_from : V -> V).
Context (unary_apply : unary_operator -> V -> option V).
Context (binary_apply : binary_operator -> V -> V -> option V).

Local Abbreviation header_mapper := (mapper V) (only parsing).
Local Abbreviation header_invoke :=
  (invoke unary_apply binary_apply) (only parsing).
Local Abbreviation header_unary_operator_mapper :=
  unary_operator_mapper (only parsing).
Local Abbreviation header_binary_operator_mapper :=
  binary_operator_mapper (only parsing).
Local Abbreviation header_value_mapper := value_mapper (only parsing).

Import value_category forwarding.

Local Abbreviation calls := (calls moved_from unary_apply binary_apply).
Local Abbreviation stable := (stable moved_from).
Local Abbreviation left_then_right :=
  (left_then_right moved_from unary_apply binary_apply).
Local Abbreviation right_then_left :=
  (right_then_left moved_from unary_apply binary_apply).


(** C7.  A binary operator function of the header is a candidate when one
    of its operands is a mapper and is none when both are plain values; a
    unary one is a candidate for a mapper and for no plain value.  What a
    candidate returns is a composer that holds its operands: a mapper
    operand as it is, a plain operand in a value wrapper, each on its side.
    No operator is applied by the operator function.  It is applied by each
    call of the composer, to what the two held operands return in that
    call on the arguments of that call, left result first; a held plain
    operand returns the value it was built from. *)
Theorem operator_functions_build_composers
    (binary : binary_operator) (unary : unary_operator)
    (m1 m2 : header_mapper) (a b : V)
    (args : list argument) (w : world V S) :
  binary_operator_function binary (mapper_object m1) (mapper_object m2)
  = Some (header_binary_operator_mapper binary m1 m2) /\
  binary_operator_function binary (mapper_object m1) (plain_value b)
  = Some (header_binary_operator_mapper binary m1 (header_value_mapper b)) /\
  binary_operator_function binary (plain_value a) (mapper_object m2)
  = Some (header_binary_operator_mapper binary (header_value_mapper a) m2) /\
  binary_operator_function (V:=V) binary (plain_value a) (plain_value b)
  = None /\
  unary_operator_function unary (mapper_object m1)
  = Some (header_unary_operator_mapper unary m1) /\
  unary_operator_function (V:=V) unary (plain_value a) = None /\
  (forall (l r : header_mapper) value w',
      calls (inject (header_binary_operator_mapper binary l r))
            args w value w' <->
      left_then_right binary (inject l) (inject r) args w value w' \/
      right_then_left binary (inject l) (inject r) args w value w') /\
  (forall (m : header_mapper) value w',
      calls (inject (header_unary_operator_mapper unary m)) args w value w' <->
      exists inner,
        calls (inject m) args w inner w' /\
        unary_apply unary inner = Some value) /\
  (forall value w',
      calls (inject (header_value_mapper b)) args w value w' <->
      value = b /\ w' = w).
Proof.
  split_and!;
    try (rewrite binary_operator_function_unfold; reflexivity);
    try (rewrite unary_operator_function_unfold; reflexivity).
  - intros l r value w'; apply calls_binary_inv.
  - intros m value w'; apply calls_unary_inv.
  - intros value w'; apply calls_value_inv.
Qed.

(** C9 (as amended).  A call of a binary composer evaluates both inner
    mappers on the same forwarded argument list, each once and one of them
    to completion before the other starts, and applies the operator to the
    left and the right result in that order.  Both orders of the two
    evaluations are behaviours of the call; the code fixes neither. *)
Theorem binary_composer_operand_order
    (Operator : binary_operator) (l r : mapper V S)
    (args : list argument) (w : world V S) (value : V) (w' : world V S)
    (Hcall : calls (binary_operator_mapper Operator l r) args w value w') :
  (left_then_right Operator l r args w value w' \/
   right_then_left Operator l r args w value w') /\
  (forall value0 w0,
      left_then_right Operator l r args w value0 w0 ->
      calls (binary_operator_mapper Operator l r) args w value0 w0) /\
  (forall value0 w0,
      right_then_left Operator l r args w value0 w0 ->
      calls (binary_operator_mapper Operator l r) args w value0 w0).
Proof.
  split_and!.
  - apply calls_binary_inv; exact Hcall.
  - intros value0 w0 H; apply calls_binary_inv; left; exact H.
  - intros value0 w0 H; apply calls_binary_inv; right; exact H.
Qed.

(** X4.  A call of a mapper of the header depends on the argument list
    only through the arguments at the positions its selectors name: two
    lists of forwarded arguments that have the same argument (the same
    object, bound the same way) at each of those positions have the same
    calls, with the same results and the same effect on the objects. *)
Theorem result_depends_on_selected_arguments_only
    (m : header_mapper) (args1 args2 : list argument)
    (w : world V S) (value : V) (w' : world V S)
    (Hagree : Forall (fun i => args1 !! i = args2 !! i) (selected m)) :
  calls (inject m) args1 w value w' <-> calls (inject m) args2 w value w'.
Proof.
  split; apply calls_inject_agree; [exact Hagree|].
  eapply Forall_impl; [exact Hagree|]; simpl; intros i E; symmetry; exact E.
Qed.

(** X9.  When no argument is changed by being moved from, no instrumented
    operand changes the objects the arguments refer to, and the result of
    each instrumented operand does not depend on the state it runs in, the
    order of evaluation changes the effects of a call and not its result:
    all calls of the mapper on these arguments, from states with these
    objects, return the same result. *)
Theorem result_is_independent_of_evaluation_order
    (m : mapper V S) (args : list argument)
    (w t : world V S) (v u : V) (w' t' : world V S)
    (Hstable : stable args (objects w))
    (Hobjects : objects t = objects w)
    (Hpure : Forall result_ignores_state (bodies m))
    (Hkeep : Forall keeps_objects (bodies m))
    (Hfirst : calls m args w v w')
    (Hsecond : calls m args t u t') :
  v = u.
Proof.
  exact (calls_result_unique _ _ _ m args (objects w) Hstable Hpure Hkeep
           w t v u w' t' eq_refl Hobjects Hfirst Hsecond).
Qed.

(** X11.  On arguments that no move changes, [invoke] on the values of
    the arguments is the call: a mapper of the header returns [value] from
    such a call exactly when [invoke] returns it on the list of the
    arguments' values, in whichever order its composers evaluate their
    operands, and the call leaves every object as it was. *)
Theorem invoke_is_the_call_on_stable_arguments
    (m : header_mapper) (args : list argument) (w : world V S)
    (values : list V) (value : V) (w' : world V S)
    (Hvalues : values_of args (objects w) values)
    (Hstable : stable args (objects w)) :
  calls (inject m) args w value w' <->
  header_invoke m values = Some value /\ w' = w.
Proof.
  apply calls_inject_invoke; assumption.
Qed.

End forwarding_properties.


(** X7.  The enabling condition of an operator function looks at the types
    of the operands up to their const, volatile and reference
    qualification only.  The class that a unary or a binary operator
    function returns is a mapper class: with an operand of that class,
    however qualified, the enabling condition of every operator function
    holds whatever the other operand is, and the data members of the class
    are mappers held by value.  This is about the enabling condition, which
    makes the function a candidate; it says nothing about the body of the
    function being well-formed for the operands. *)
Theorem operator_signatures_compose
    (binary : binary_operator) (unary : unary_operator)
    (Left Right : types.type) :
  (signatures.binary_operator_enabled Left Right = true <->
   types.is_mapper_v Left = true \/ types.is_mapper_v Right = true) /\
  (forall c v r c' v' r',
      signatures.binary_operator_enabled
        (types.qualified c v r (types.core_of Left))
        (types.qualified c' v' r' (types.core_of Right))
      = signatures.binary_operator_enabled Left Right) /\
  (forall c v r,
      signatures.unary_operator_enabled
        (types.qualified c v r (types.core_of Left))
      = signatures.unary_operator_enabled Left) /\
  (forall c v r Other,
      signatures.binary_operator_enabled
        (types.qualified c v r
           (signatures.binary_operator_class binary Left Right)) Other
      = true /\
      signatures.binary_operator_enabled Other
        (types.qualified c v r
           (signatures.binary_operator_class binary Left Right))
      = true /\
      signatures.unary_operator_enabled
        (types.qualified c v r
           (signatures.binary_operator_class binary Left Right))
      = true) /\
  (forall c v r Other,
      signatures.binary_operator_enabled
        (types.qualified c v r
           (signatures.unary_operator_class unary Left)) Other
      = true /\
      signatures.binary_operator_enabled Other
        (types.qualified c v r
           (signatures.unary_operator_class unary Left))
      = true /\
      signatures.unary_operator_enabled
        (types.qualified c v r
           (signatures.unary_operator_class unary Left))
      = true) /\
  Forall (fun U => signatures.by_value U = true /\
                   types.is_mapper_v U = true)
         (signatures.member_types
            (types.plain
               (signatures.binary_operator_class binary Left Right))) /\
  Forall (fun U => signatures.by_value U = true /\
                   types.is_mapper_v U = true)
         (signatures.member_types
            (types.plain (signatures.unary_operator_class unary Left))).
Proof.
  unfold signatures.binary_operator_enabled,
         signatures.unary_operator_enabled.
  split_and!.
  - apply orb_true_iff.
  - intros c v r c' v' r'.
    rewrite (types_facts.is_mapper_v_same_core
               (types.qualified c v r (types.core_of Left)) Left eq_refl).
    rewrite (types_facts.is_mapper_v_same_core
               (types.qualified c' v' r' (types.core_of Right)) Right eq_refl).
    reflexivity.
  - intros c v r.
    apply (types_facts.is_mapper_v_same_core
             (types.qualified c v r (types.core_of Left)) Left eq_refl).
  - intros c v r Other; split_and!;
      [reflexivity | apply orb_true_iff; right; reflexivity | reflexivity].
  - intros c v r Other; split_and!;
      [reflexivity | apply orb_true_iff; right; reflexivity | reflexivity].
  - simpl; repeat constructor;
      first [ apply signature_facts.by_value_wrap_mapper_t,
                    signature_facts.by_value_decay_t
            | apply types_facts.is_mapper_v_wrap_mapper_t ].
  - simpl; repeat constructor;
      first [ apply signature_facts.by_value_wrap_mapper_t,
                    signature_facts.by_value_decay_t
            | apply types_facts.is_mapper_v_wrap_mapper_t ].
Qed.

(** ** Calls on forwarded arguments at concrete inputs *)


Lemma operator_functions_build_composers_witness :
  binary_operator_function minus
    (mapper_object dollar1) (plain_value (native.int 3))
  = Some (binary_operator_mapper minus
            (argument_mapper 0) (value_mapper (native.int 3))) /\
  binary_operator_function minus
    (plain_value (native.int 3)) (plain_value (native.int 3))
  = None.
Proof.
  destruct (operator_functions_build_composers
              trivially_moved native.unary_apply native.binary_apply
              minus negate dollar1 dollar1 (native.int 3) (native.int 3)
              forwarded_probes.one_int
              (forwarding.World (S:=unit) [native.int 10] tt))
    as (_ & Hright & _ & Hnone & _).
  split; [exact Hright | exact Hnone].
Defined.

Lemma binary_composer_operand_order_witness :
  forwarding.calls text.moved_from text.unary_apply text.binary_apply
    (forwarding.inject
       (binary_operator_mapper plus
          (binary_operator_mapper plus dollar1 dollar2) dollar1))
    text.two_temporaries text.ab_cd
    (text.str "cdab")
    (forwarding.World [text.str EmptyString; text.str EmptyString] tt) /\
  (forwarding.left_then_right
     text.moved_from text.unary_apply text.binary_apply plus
     (forwarding.inject (binary_operator_mapper plus dollar1 dollar2))
     (forwarding.inject dollar1)
     text.two_temporaries text.ab_cd
     (text.str "cdab")
     (forwarding.World [text.str EmptyString; text.str EmptyString] tt) \/
   forwarding.right_then_left
     text.moved_from text.unary_apply text.binary_apply plus
     (forwarding.inject (binary_operator_mapper plus dollar1 dollar2))
     (forwarding.inject dollar1)
     text.two_temporaries text.ab_cd
     (text.str "cdab")
     (forwarding.World [text.str EmptyString; text.str EmptyString] tt)).
Proof.
  assert (Hcall : forwarding.calls
                    text.moved_from text.unary_apply text.binary_apply
                    (forwarding.inject
                       (binary_operator_mapper plus
                          (binary_operator_mapper plus dollar1 dollar2)
                          dollar1))
                    text.two_temporaries text.ab_cd
                    (text.str "cdab")
                    (forwarding.World
                       [text.str EmptyString; text.str EmptyString] tt)).
  { apply (run_calls _ _ _ false); reflexivity. }
  split; [exact Hcall|].
  exact (proj1 (binary_composer_operand_order
                  text.moved_from text.unary_apply text.binary_apply
                  plus _ _ _ _ _ _ Hcall)).
Defined.

Lemma result_depends_on_selected_arguments_only_witness :
  Forall (fun i =>
            text.one_temporary !! i
            = [value_category.Argument 0 value_category.rvalue;
               value_category.Argument 0 value_category.mutable_lvalue] !! i)
         (selected (V:=text.value)
            (binary_operator_mapper plus dollar1 dollar1)) /\
  (forwarding.calls text.moved_from text.unary_apply text.binary_apply
     (forwarding.inject (binary_operator_mapper plus dollar1 dollar1))
     text.one_temporary text.ab (text.str "ab")
     (forwarding.World [text.str EmptyString] tt) <->
   forwarding.calls text.moved_from text.unary_apply text.binary_apply
     (forwarding.inject (binary_operator_mapper plus dollar1 dollar1))
     [value_category.Argument 0 value_category.rvalue;
      value_category.Argument 0 value_category.mutable_lvalue]
     text.ab (text.str "ab")
     (forwarding.World [text.str EmptyString] tt)).
Proof.
  assert (Hagree :
            Forall (fun i =>
                      text.one_temporary !! i
                      = [value_category.Argument 0 value_category.rvalue;
                         value_category.Argument 0
                           value_category.mutable_lvalue] !! i)
                   (selected (V:=text.value)
                      (binary_operator_mapper plus dollar1 dollar1))).
  { simpl; repeat constructor. }
  split; [exact Hagree|].
  exact (result_depends_on_selected_arguments_only
           text.moved_from text.unary_apply text.binary_apply
           (binary_operator_mapper plus dollar1 dollar1)
           _ _ text.ab (text.str "ab")
           (forwarding.World [text.str EmptyString] tt) Hagree).
Defined.

Lemma operator_signatures_compose_witness :
  signatures.binary_operator_enabled
    (types.plain (types.fundamental types.cpp_int))
    (types.qualified true false types.lvalue_reference
       (signatures.unary_operator_class negate
          (types.plain (types.argument_mapper 0))))
  = true.
Proof.
  destruct (operator_signatures_compose plus negate
              (types.plain (types.argument_mapper 0))
              (types.plain (types.fundamental types.cpp_int)))
    as (_ & _ & _ & _ & Hunary & _).
  exact (proj1 (proj2 (Hunary true false types.lvalue_reference
                         (types.plain (types.fundamental types.cpp_int))))).
Defined.

Lemma result_is_independent_of_evaluation_order_witness :
  forwarding.stable trivially_moved forwarded_probes.one_int [native.int 7] /\
  Forall forwarding.result_ignores_state
         (forwarding.bodies forwarded_probes.probed_product) /\
  Forall forwarding.keeps_objects
         (forwarding.bodies forwarded_probes.probed_product) /\
  forwarding.calls trivially_moved native.unary_apply native.binary_apply
    forwarded_probes.probed_product
    forwarded_probes.one_int forwarded_probes.seven
    (native.int 21)
    (forwarding.World [native.int 7] ["left"; "right"]%string) /\
  forwarding.calls trivially_moved native.unary_apply native.binary_apply
    forwarded_probes.probed_product
    forwarded_probes.one_int forwarded_probes.seven
    (native.int 21)
    (forwarding.World [native.int 7] ["right"; "left"]%string) /\
  native.int 21 = native.int 21.
Proof.
  assert (Hstable : forwarding.stable trivially_moved
                      forwarded_probes.one_int [native.int 7]).
  { intros i a value _ _ _; reflexivity. }
  assert (Hpure : Forall forwarding.result_ignores_state
                    (forwarding.bodies forwarded_probes.probed_product)).
  { simpl; repeat constructor. }
  assert (Hkeep : Forall forwarding.keeps_objects
                    (forwarding.bodies forwarded_probes.probed_product)).
  { simpl; repeat constructor. }
  assert (Hfirst : forwarding.calls
                     trivially_moved native.unary_apply native.binary_apply
                     forwarded_probes.probed_product
                     forwarded_probes.one_int forwarded_probes.seven
                     (native.int 21)
                     (forwarding.World [native.int 7]
                        ["left"; "right"]%string)).
  { apply (run_calls _ _ _ true); reflexivity. }
  assert (Hsecond : forwarding.calls
                      trivially_moved native.unary_apply native.binary_apply
                      forwarded_probes.probed_product
                      forwarded_probes.one_int forwarded_probes.seven
                      (native.int 21)
                      (forwarding.World [native.int 7]
                         ["right"; "left"]%string)).
  { apply (run_calls _ _ _ false); reflexivity. }
  split_and!; try assumption.
  exact (result_is_independent_of_evaluation_order
           trivially_moved native.unary_apply native.binary_apply
           forwarded_probes.probed_product forwarded_probes.one_int
           forwarded_probes.seven forwarded_probes.seven
           _ _ _ _ Hstable eq_refl Hpure Hkeep Hfirst Hsecond).
Defined.

Lemma invoke_is_the_call_on_stable_arguments_witness :
  forwarding.values_of
    [value_category.Argument 0 value_category.rvalue;
     value_category.Argument 1 value_category.mutable_lvalue]
    [native.int 3; native.int 4] [native.int 3; native.int 4] /\
  forwarding.stable trivially_moved
    [value_category.Argument 0 value_category.rvalue;
     value_category.Argument 1 value_category.mutable_lvalue]
    [native.int 3; native.int 4] /\
  (forwarding.calls trivially_moved native.unary_apply native.binary_apply
     (forwarding.inject (binary_operator_mapper multiplies dollar1 dollar2))
     [value_category.Argument 0 value_category.rvalue;
      value_category.Argument 1 value_category.mutable_lvalue]
     (forwarding.World [native.int 3; native.int 4] tt)
     (native.int 12)
     (forwarding.World [native.int 3; native.int 4] tt) <->
   invoke native.unary_apply native.binary_apply
     (binary_operator_mapper multiplies dollar1 dollar2)
     [native.int 3; native.int 4] = Some (native.int 12) /\
   forwarding.World [native.int 3; native.int 4] tt
   = forwarding.World [native.int 3; native.int 4] tt).
Proof.
  assert (Hvalues : forwarding.values_of
                      [value_category.Argument 0 value_category.rvalue;
                       value_category.Argument 1 value_category.mutable_lvalue]
                      [native.int 3; native.int 4]
                      [native.int 3; native.int 4]).
  { repeat constructor. }
  assert (Hstable : forwarding.stable trivially_moved
                      [value_category.Argument 0 value_category.rvalue;
                       value_category.Argument 1 value_category.mutable_lvalue]
                      [native.int 3; native.int 4]).
  { intros i a value _ _ _; reflexivity. }
  split; [exact Hvalues|]; split; [exact Hstable|].
  exact (invoke_is_the_call_on_stable_arguments
           trivially_moved native.unary_apply native.binary_apply
           (binary_operator_mapper multiplies dollar1 dollar2)
           _ (forwarding.World [native.int 3; native.int 4] tt)
           _ _ _ Hvalues Hstable).
Defined.

(** ** Temporaries, run *)

Section temporaries.

Import text.

Local Abbreviation run :=
  (forwarding.run text.moved_from text.unary_apply text.binary_apply).

(** [($1 + $1)] on a temporary ["ab"] is ["ab"] in either order, and
    ["abab"] on an lvalue ["ab"]. *)
Example temporary_plus_itself :
  run true (forwarding.inject (binary_operator_mapper plus dollar1 dollar1))
      one_temporary ab
  = Some (str "ab", forwarding.World [str EmptyString] tt) /\
  run false (forwarding.inject (binary_operator_mapper plus dollar1 dollar1))
      one_temporary ab
  = Some (str "ab", forwarding.World [str EmptyString] tt) /\
  run true (forwarding.inject (binary_operator_mapper plus dollar1 dollar1))
      one_lvalue ab
  = Some (str "abab", ab).
Proof. split_and!; reflexivity. Qed.

(** [($1 == $1)] on a temporary ["ab"] is false. *)
Example temporary_equals_itself :
  run true
      (forwarding.inject (binary_operator_mapper equal_to dollar1 dollar1))
      one_temporary ab
  = Some (flag false, forwarding.World [str EmptyString] tt) /\
  run true
      (forwarding.inject (binary_operator_mapper equal_to dollar1 dollar1))
      one_lvalue ab
  = Some (flag true, ab).
Proof. split_and!; reflexivity. Qed.

(** [(($1 + $2) + $1)] on temporaries ["ab"] and ["cd"]: ["abcd"] when
    every composer runs its left operand first, ["cdab"] when every
    composer runs its right operand first. *)
Example order_shows_on_temporaries :
  run true
      (forwarding.inject
         (binary_operator_mapper plus
            (binary_operator_mapper plus dollar1 dollar2) dollar1))
      two_temporaries ab_cd
  = Some (str "abcd",
          forwarding.World [str EmptyString; str EmptyString] tt) /\
  run false
      (forwarding.inject
         (binary_operator_mapper plus
            (binary_operator_mapper plus dollar1 dollar2) dollar1))
      two_temporaries ab_cd
  = Some (str "cdab",
          forwarding.World [str EmptyString; str EmptyString] tt).
Proof. split_and!; reflexivity. Qed.

End temporaries.
